(** * ReactPython: the data-access layer of the movie API (crud.py)

    A shallow embedding of [models.py] and [crud.py].  The relational store
    is a record of three tables, each a list of rows in the store's natural
    order.  The SQLAlchemy session is a pair of the committed store and the
    unit of work (the changes registered on ORM objects and not yet
    flushed); the functions of [crud.py] run in a state-and-exception monad
    over that session.

    Conventions of the embedding:
    - SQL integers are [Z]; the width of a column (SmallInteger) is
      enforced by the store and is not modelled;
    - a nullable column is an [option];
    - [ORDER BY] is a merge sort on the ordering key (SQL leaves the order
      of rows with equal keys open);
    - the legacy [Query] API de-duplicates full entities by primary key
      when it builds the result list;
    - [logger.error] writes to the process log, which is not part of the
      session, and is left out;
    - the flush of a commit checks the rows its DELETE statements match,
      as the ORM does, and raises StaleDataError on a mismatch;
    - avg is in the number type of the store, whose rounding is a
      parameter. *)

From Stdlib Require Import ZArith QArith Ascii String.
From stdpp Require Import base decidable option list sorting gmap strings.

Local Open Scope Z_scope.
#[local] Set Warnings "-clear-no-such-hyp".

(** ** models.py *)

Record date := Date { date_year : Z; date_month : Z; date_day : Z }.

#[global] Instance date_eq_dec : EqDecision date.
Proof. solve_decision. Defined.

Module Movie.
(** class Movie(Base), table "movies".  The relationships [director] and
    [actors] are not columns: they are resolved against the tables
    "stars" and "play" (see [director_of] and [actors_of]). *)
Record t := Row {
  id : Z;
  title : string;
  year : Z;
  duration : option Z;
  id_director : option Z
}.

Definition set_title (v : string) (m : t) : t :=
  Row (id m) v (year m) (duration m) (id_director m).
Definition set_year (v : Z) (m : t) : t :=
  Row (id m) (title m) v (duration m) (id_director m).
Definition set_duration (v : option Z) (m : t) : t :=
  Row (id m) (title m) (year m) v (id_director m).
Definition set_id_director (v : option Z) (m : t) : t :=
  Row (id m) (title m) (year m) (duration m) v.
End Movie.

Module Star.
(** class Star(Base), table "stars". *)
Record t := Row {
  id : Z;
  name : string;
  birthdate : option date
}.
End Star.

Module Play.
(** play_association_table, table "play": no primary key, every column
    nullable. *)
Record t := Row {
  id_movie : option Z;
  id_actor : option Z;
  role : option string
}.
End Play.

#[global] Instance movie_eq_dec : EqDecision Movie.t.
Proof. solve_decision. Defined.
#[global] Instance star_eq_dec : EqDecision Star.t.
Proof. solve_decision. Defined.
#[global] Instance play_eq_dec : EqDecision Play.t.
Proof. solve_decision. Defined.

(** The store: the three tables. *)
Record DB := mkDB {
  movies : list Movie.t;
  stars : list Star.t;
  play : list Play.t
}.

(** [id] is declared [primary_key=True] on both entity tables. *)
Definition primary_keys (d : DB) : Prop :=
  NoDup (Movie.id <$> movies d) ∧ NoDup (Star.id <$> stars d).

(** ** The session: committed store and unit of work *)

(** A change registered in the unit of work, flushed by [commit]. *)
Inductive change :=
  | UpdateMovie (m : Movie.t)      (* UPDATE movies SET ... WHERE id = m.id *)
  | DeletePlay (mid sid : Z)       (* DELETE FROM play WHERE id_movie = mid AND id_actor = sid *)
  | InsertPlay (mid sid : Z).      (* INSERT INTO play (id_movie, id_actor) VALUES (mid, sid) *)

Record Session := mkSession {
  store : DB;
  pending : list change
}.

Definition apply_change (d : DB) (c : change) : DB :=
  match c with
  | UpdateMovie m =>
      mkDB ((λ r, if decide (Movie.id r = Movie.id m) then m else r) <$> movies d)
           (stars d) (play d)
  | DeletePlay mid sid =>
      mkDB (movies d) (stars d)
           (filter (λ p, ¬ (Play.id_movie p = Some mid ∧ Play.id_actor p = Some sid)) (play d))
  | InsertPlay mid sid =>
      mkDB (movies d) (stars d) (play d ++ [Play.Row (Some mid) (Some sid) None])
  end.

Definition flush (d : DB) (cs : list change) : DB := foldl apply_change d cs.

(** The rows of "play" that join the movie to the star.  The table has no
    key: there may be none, one or several. *)
Definition join_rows (movie_id star_id : Z) (d : DB) : list Play.t :=
  filter (λ p, Play.id_movie p = Some movie_id ∧ Play.id_actor p = Some star_id)
         (play d).

(** The number of rows the DELETE statements of a flush match, one
    statement after the other, and the number of these statements. *)
Fixpoint deleted_rows (d : DB) (cs : list change) : nat :=
  match cs with
  | [] => 0%nat
  | c :: cs' =>
      (match c with
       | DeletePlay mid sid => length (join_rows mid sid d)
       | _ => 0
       end + deleted_rows (apply_change d c) cs')%nat
  end.

Fixpoint deletes (cs : list change) : nat :=
  match cs with
  | [] => 0%nat
  | DeletePlay _ _ :: cs' => S (deletes cs')
  | _ :: cs' => deletes cs'
  end.

(** The ORM expects every DELETE of a join row to match one row and
    compares the row count of the statements with their number. *)
Definition stale (d : DB) (cs : list change) : bool :=
  negb (deleted_rows d cs =? deletes cs)%nat.

(** Python exceptions the modelled code can raise. *)
Inductive exn :=
  | AttributeError        (* attribute access on None *)
  | InvalidRequestError   (* Session.refresh of an object whose row is gone *)
  | StaleDataError.       (* a flush whose DELETEs match another number of rows *)

Inductive outcome (A : Type) :=
  | Returned (a : A)
  | Raised (e : exn).
Arguments Returned {A} a.
Arguments Raised {A} e.

(** Computations on a session. *)
Definition M (A : Type) : Type := Session → outcome A * Session.

Definition ret {A} (a : A) : M A := λ s, (Returned a, s).
Definition bind {A B} (c : M A) (k : A → M B) : M B :=
  λ s, match c s with
       | (Returned a, s') => k a s'
       | (Raised e, s') => (Raised e, s')
       end.
Definition raise {A} (e : exn) : M A := λ s, (Raised e, s).

(** The monad is used through stdpp's notations [x ← c; k] and [c;; k]. *)
#[global] Instance session_ret : MRet M := @ret.
#[global] Instance session_bind : MBind M := λ A B k c, bind c k.

(** db.query(...): a SELECT reads the committed store (the session is
    created with autoflush=False). *)
Definition query {A} (q : DB → A) : M A := λ s, (Returned (q (store s)), s).

(** Assignment to an attribute of a persistent object marks it dirty. *)
Definition register (cs : list change) : M unit :=
  λ s, (Returned tt, mkSession (store s) (pending s ++ cs)).

(** db.commit(): the unit of work is flushed and the transaction
    committed; when the row count of the DELETEs is not the expected one
    the flush raises, the transaction is rolled back and nothing is
    written. *)
Definition commit : M unit :=
  λ s, if stale (store s) (pending s)
       then (Raised StaleDataError, mkSession (store s) [])
       else (Returned tt, mkSession (flush (store s) (pending s)) []).

(** ** Query building blocks *)

(** ORDER BY year / ORDER BY year DESC *)
Definition year_asc (a b : Movie.t) : Prop := Movie.year a ≤ Movie.year b.
Definition year_desc (a b : Movie.t) : Prop := Movie.year b ≤ Movie.year a.

#[global] Instance year_asc_dec : RelDecision year_asc.
Proof. intros a b. unfold year_asc. apply _. Defined.
#[global] Instance year_desc_dec : RelDecision year_desc.
Proof. intros a b. unfold year_desc. apply _. Defined.

Definition order_by_year (l : list Movie.t) : list Movie.t := merge_sort year_asc l.
Definition order_by_year_desc (l : list Movie.t) : list Movie.t := merge_sort year_desc l.

(** db.query(models.Movie).filter(models.Movie.id == movie_id).first() *)
Definition movie_by_id (movie_id : Z) (d : DB) : option Movie.t :=
  head (filter (λ m, Movie.id m = movie_id) (movies d)).

(** db.query(models.Star).filter(models.Star.id == star_id).first() *)
Definition star_by_id (star_id : Z) (d : DB) : option Star.t :=
  head (filter (λ s, Star.id s = star_id) (stars d)).

(** The ORM keeps the first row of every primary key. *)
Fixpoint unique_from {A} (key : A → Z) (seen : gset Z) (l : list A) : list A :=
  match l with
  | [] => []
  | x :: l =>
      if decide (key x ∈ seen) then unique_from key seen l
      else x :: unique_from key ({[key x]} ∪ seen) l
  end.
Definition unique {A} (key : A → Z) (l : list A) : list A := unique_from key ∅ l.

(** .join(models.Movie.director):
    movies INNER JOIN stars ON stars.id = movies.id_director *)
Definition join_director (d : DB) : list (Movie.t * Star.t) :=
  m ← movies d; s ← stars d;
  if decide (Movie.id_director m = Some (Star.id s)) then [(m, s)] else [].

(** .join(models.Movie.actors):
    movies INNER JOIN play ON movies.id = play.id_movie
           INNER JOIN stars ON stars.id = play.id_actor *)
Definition join_actors (d : DB) : list (Movie.t * Star.t) :=
  m ← movies d; p ← play d; s ← stars d;
  if decide (Play.id_movie p = Some (Movie.id m) ∧ Play.id_actor p = Some (Star.id s))
  then [(m, s)] else [].

(** The attribute [movie.director]: the star the foreign key points to,
    None when the key is null or dangling. *)
Definition director_of (m : Movie.t) (d : DB) : option Star.t :=
  sid ← Movie.id_director m; head (filter (λ s, Star.id s = sid) (stars d)).

(** The attribute [movie.actors]: the stars joined to the movie through
    "play". *)
Definition actors_of (movie_id : Z) (d : DB) : list Star.t :=
  unique Star.id
    (p ← play d; s ← stars d;
     if decide (Play.id_movie p = Some movie_id ∧ Play.id_actor p = Some (Star.id s))
     then [s] else []).

(** ORDER BY movies.year DESC on joined rows *)
Definition joined_year_desc (a b : Movie.t * Star.t) : Prop := year_desc a.1 b.1.
#[global] Instance joined_year_desc_dec : RelDecision joined_year_desc.
Proof. intros a b. unfold joined_year_desc. apply _. Defined.

(** ** crud.py, Movie objects *)

Definition get_movie (movie_id : Z) : M (option Movie.t) :=
  db_movie ← query (movie_by_id movie_id);
  match db_movie with
  | None => ret None
  | Some m => ret (Some m)
  end.

Definition get_movies_by_range_year (year_min year_max : option Z)
  : M (option (list Movie.t)) :=
  match year_min, year_max with
  | None, None => ret None
  | None, Some hi =>
      l ← query (λ d, order_by_year_desc (filter (λ m, Movie.year m ≤ hi) (movies d)));
      ret (Some l)
  | Some lo, None =>
      l ← query (λ d, order_by_year (filter (λ m, lo ≤ Movie.year m) (movies d)));
      ret (Some l)
  | Some lo, Some hi =>
      l ← query (λ d, order_by_year
                        (filter (λ m, lo ≤ Movie.year m ∧ Movie.year m ≤ hi) (movies d)));
      ret (Some l)
  end.

(** *** SQL LIKE

    [like_match pat s]: the pattern character "%" matches any run of
    characters, "_" matches any one character, every other character
    matches itself; the escape character, when it is not the last one of
    the pattern, makes the next pattern character literal.  How two
    characters compare (the collation) and which character escapes are
    settings of the store ([database.py] only names the server): they are
    parameters here. *)
Section Like.
Variable collate : ascii → ascii → bool.
Variable escape : option ascii.

Definition wildcard (c : ascii) : bool := Ascii.eqb c "%" || Ascii.eqb c "_".

Definition is_escape (c : ascii) : bool :=
  match escape with Some e => Ascii.eqb c e | None => false end.

Fixpoint like_match (pat s : list ascii) : bool :=
  match pat with
  | [] => match s with [] => true | _ :: _ => false end
  | c :: pat' =>
      if Ascii.eqb c "%" then
        (fix skip (s : list ascii) : bool :=
           like_match pat' s
           || match s with [] => false | _ :: s' => skip s' end) s
      else if Ascii.eqb c "_" then
        match s with [] => false | _ :: s' => like_match pat' s' end
      else
        match pat', s with
        | _, [] => false
        | e :: pat'', x :: s' =>
            if is_escape c then collate e x && like_match pat'' s'
            else collate c x && like_match pat' s'
        | [], x :: s' => collate c x && like_match pat' s'
        end
  end.

(** column.like(pattern) *)
Definition like (column pattern : string) : bool :=
  like_match (list_ascii_of_string pattern) (list_ascii_of_string column).

(** [name] ends with [text], characters compared by the collation. *)
Definition ends_with (name text : string) : Prop :=
  ∃ p r, list_ascii_of_string name = p ++ r
         ∧ Forall2 (λ c x, collate c x = true) (list_ascii_of_string text) r.

(** [text] holds no character that LIKE reads specially. *)
Definition plain (text : string) : Prop :=
  Forall (λ c, wildcard c = false ∧ is_escape c = false) (list_ascii_of_string text).

Definition get_movies_by_title (movie_title : string) : M (list Movie.t) :=
  query (λ d, order_by_year_desc
                (filter (λ m, like (Movie.title m) ("%" ++ movie_title ++ "%") = true)
                        (movies d))).

Definition get_movies_by_actor_endname (endname : string) : M (list Movie.t) :=
  query (λ d, unique Movie.id
                (fst <$> merge_sort joined_year_desc
                           (filter (λ ms, like (Star.name ms.2) ("%" ++ endname) = true)
                                   (join_actors d)))).

(** What the specification asks of the result [l] for the text [text]:
    exactly the movies with an actor whose name ends with the text, each
    once, descending by year. *)
Definition suffix_result (d : DB) (text : string) (l : list Movie.t) : Prop :=
  (∀ m, m ∈ l ↔ m ∈ movies d
                ∧ ∃ s, s ∈ actors_of (Movie.id m) d
                       ∧ ends_with (Star.name s) text)
  ∧ NoDup (Movie.id <$> l)
  ∧ StronglySorted year_desc l.
End Like.

Definition get_director_by_id_movie (movie_id : Z) : M (option Star.t) :=
  movie_director ← query (λ d, head (fst <$> filter (λ ms, Movie.id ms.1 = movie_id)
                                                     (join_director d)));
  match movie_director with
  | None => raise AttributeError
  | Some m => query (director_of m)
  end.

(** *** GROUP BY year with the row count and min, max, avg of duration

    One scan of the table folds every row into the accumulator of its
    year; min, max and avg skip NULL and are NULL on a
    group without a value. *)
Record agg := Agg {
  agg_count : Z;          (* rows of the group *)
  agg_min : option Z;
  agg_max : option Z;
  agg_sum : Z;            (* sum of the non-null durations *)
  agg_values : Z          (* number of non-null durations *)
}.

Definition agg_first (dur : option Z) : agg :=
  match dur with
  | None => Agg 1 None None 0 0
  | Some v => Agg 1 (Some v) (Some v) v 1
  end.

Definition agg_next (a : agg) (dur : option Z) : agg :=
  match dur with
  | None => Agg (agg_count a + 1) (agg_min a) (agg_max a) (agg_sum a) (agg_values a)
  | Some v =>
      Agg (agg_count a + 1)
          (Some (from_option (Z.min v) v (agg_min a)))
          (Some (from_option (Z.max v) v (agg_max a)))
          (agg_sum a + v) (agg_values a + 1)
  end.

Definition group_row (g : gmap Z agg) (m : Movie.t) : gmap Z agg :=
  <[Movie.year m :=
      match g !! Movie.year m with
      | None => agg_first (Movie.duration m)
      | Some a => agg_next a (Movie.duration m)
      end]> g.

Definition group_by_year (rows : list Movie.t) : gmap Z agg := foldl group_row ∅ rows.

Definition group_asc (a b : Z * agg) : Prop := a.1 ≤ b.1.
#[global] Instance group_asc_dec : RelDecision group_asc.
Proof. intros a b. unfold group_asc. apply _. Defined.

(** The dictionaries the function returns.  avg_duration is a number of
    the store, held as the rational it denotes. *)
Record MovieStat := Stat {
  stat_year : Z;
  movie_count : Z;
  min_duration : option Z;
  max_duration : option Z;
  avg_duration : option Q
}.

(** avg is the quotient of the sum by the number of values in the number
    type of the store: a DECIMAL with four decimals on the MySQL server of
    [database.py], a float on SQLite.  How the store rounds the exact
    quotient, given in lowest terms, is the parameter [sql_number]. *)
Section Average.
Variable sql_number : Q → Q.

Definition sql_avg (a : agg) : option Q :=
  if decide (agg_values a = 0) then None
  else Some (sql_number (Qred (Qmake (agg_sum a) (Z.to_pos (agg_values a))))).

Definition get_count_movies_by_year : M (list MovieStat) :=
  rows ← query (λ d, merge_sort group_asc (map_to_list (group_by_year (movies d))));
  ret ((λ ya : Z * agg,
          Stat ya.1 (agg_count ya.2) (agg_min ya.2) (agg_max ya.2) (sql_avg ya.2)) <$> rows).
End Average.

(** MySQL's DECIMAL with four decimals: the nearest multiple of 1/10000,
    halves away from zero. *)
Definition round_div (a n : Z) : Z :=
  Z.sgn a * ((2 * Z.abs a + n) / (2 * n)).
Definition decimal4 (q : Q) : Q :=
  Qred (Qmake (round_div (Qnum q * 10000) (Z.pos (Qden q))) 10000).

(** *** Mutations *)

Module schemas.
(** Modelled from the spec: schemas.py is not among the sources;
    schemas.Movie is the request body of update, "update(id, title,
    year, duration)", and [update_movie] reads exactly these four
    attributes of it. *)
Record Movie := mkMovie {
  id : Z;
  title : string;
  year : Z;
  duration : option Z
}.
End schemas.

(** [obj.attr = v] on a persistent movie: the object now holds [m'] and is
    dirty. *)
Definition assign (m' : Movie.t) : M Movie.t :=
  register [UpdateMovie m'];; ret m'.

(** db.refresh(obj): the row is read again by primary key. *)
Definition refresh (m : Movie.t) : M Movie.t :=
  r ← query (movie_by_id (Movie.id m));
  match r with
  | Some m' => ret m'
  | None => raise InvalidRequestError
  end.

Definition update_movie (movie : schemas.Movie) : M (option Movie.t) :=
  db_movie ← query (movie_by_id (schemas.id movie));
  match db_movie with
  | Some m =>
      m ← assign (Movie.set_title (schemas.title movie) m);
      m ← assign (Movie.set_year (schemas.year movie) m);
      m ← assign (Movie.set_duration (schemas.duration movie) m);
      commit;;
      ret (Some m)
  | None => ret None
  end.

Definition get_star (star_id : Z) : M (option Star.t) :=
  query (star_by_id star_id).

(** The result is a movie or one of the strings "error_m", "error_s". *)
Definition update_movie_director (movie_id director_id : Z) : M (string + Movie.t) :=
  db_movie ← get_movie movie_id;
  db_star ← get_star director_id;
  match db_movie, db_star with
  | None, _ => ret (inl "error_m"%string)
  | Some _, None => ret (inl "error_s"%string)
  | Some m, Some st =>
      m ← assign (Movie.set_id_director (Some (Star.id st)) m);
      commit;;
      ret (inr m)
  end.

(** [db_movie.actors.append(db_star)]: the collection is loaded; a star
    that is not in it enters it and gets a join row at the flush, a star
    that is already in it is no change for the unit of work. *)
Definition append_actor (m : Movie.t) (st : Star.t) : M unit :=
  old ← query (actors_of (Movie.id m));
  if decide (Star.id st ∈ Star.id <$> old) then ret tt
  else register [InsertPlay (Movie.id m) (Star.id st)].

Definition add_movie_actor (movie_id star_id : Z) : M (string + Movie.t) :=
  db_movie ← get_movie movie_id;
  db_star ← get_star star_id;
  match db_movie, db_star with
  | None, _ => ret (inl "error_m"%string)
  | Some _, None => ret (inl "error_s"%string)
  | Some m, Some st =>
      append_actor m st;;
      commit;;
      m ← refresh m;
      ret (inr m)
  end.

(** [db_movie.actors = db_actors]: the unit of work deletes the join rows
    of the stars that left the collection and inserts one for each star
    that entered it. *)
Definition set_actors (m : Movie.t) (new : list Star.t) : M unit :=
  old ← query (actors_of (Movie.id m));
  register
    ((DeletePlay (Movie.id m) ∘ Star.id
        <$> filter (λ s, Star.id s ∉ Star.id <$> new) old)
     ++ (InsertPlay (Movie.id m) ∘ Star.id
        <$> filter (λ s, Star.id s ∉ Star.id <$> old) new)).

Definition update_movie_actors (movie_id : Z) (star_ids : list Z) : M (option Movie.t) :=
  db_movie ← get_movie movie_id;
  db_actors ← query (λ d, filter (λ s, Star.id s ∈ star_ids) (stars d));
  match db_movie with
  | None => ret None
  | Some m =>
      set_actors m db_actors;;
      commit;;
      m ← refresh m;
      ret (Some m)
  end.

(** Running a function of crud.py on a session whose unit of work is
    empty, as every request starts. *)
Definition fresh (d : DB) : Session := mkSession d [].
Definition run {A} (c : M A) (d : DB) : outcome A * Session := c (fresh d).

(** ** Sample stores *)

Definition sample_movies : list Movie.t :=
  [ Movie.Row 1 "Heat" 1995 (Some 170) (Some 10);
    Movie.Row 2 "Alien" 1979 (Some 117) None;
    Movie.Row 3 "Gladiator" 2000 (Some 155) (Some 11);
    Movie.Row 4 "Ali" 2001 None (Some 10);
    Movie.Row 5 "Casino" 1995 (Some 178) None ].

Definition sample_stars : list Star.t :=
  [ Star.Row 10 "Michael Mann" None;
    Star.Row 11 "Ridley Scott" (Some (Date 1937 11 30));
    Star.Row 12 "John Smith" None;
    Star.Row 13 "Ann Smithson" None;
    Star.Row 14 "Bob" None ].

Definition sample_play : list Play.t :=
  [ Play.Row (Some 1) (Some 12) None;
    Play.Row (Some 2) (Some 13) (Some "Ripley"%string);
    Play.Row (Some 3) (Some 14) None;
    Play.Row (Some 3) (Some 12) None ].

Definition sample_db : DB := mkDB sample_movies sample_stars sample_play.

Definition eqb_collation : ascii → ascii → bool := Ascii.eqb.
Definition backslash : option ascii := Some "\"%char.


(** ** Vocabulary of the statements *)

(** Primary keys that are in use. *)
Definition movie_exists (movie_id : Z) (d : DB) : Prop :=
  movie_id ∈ Movie.id <$> movies d.
Definition star_exists (star_id : Z) (d : DB) : Prop :=
  star_id ∈ Star.id <$> stars d.

#[global] Instance movie_exists_dec movie_id d : Decision (movie_exists movie_id d).
Proof. unfold movie_exists. apply _. Defined.
#[global] Instance star_exists_dec star_id d : Decision (star_exists star_id d).
Proof. unfold star_exists. apply _. Defined.

#[global] Instance primary_keys_dec d : Decision (primary_keys d).
Proof. unfold primary_keys. apply _. Defined.


(** [s] is a row of "stars" that a row of "play" joins to the movie. *)
Definition acts_in (d : DB) (s : Star.t) (movie_id : Z) : Prop :=
  s ∈ stars d
  ∧ ∃ p, p ∈ play d
         ∧ Play.id_movie p = Some movie_id ∧ Play.id_actor p = Some (Star.id s).

(** The changes that [db_movie.actors = new] registers. *)
Definition actor_changes (d : DB) (movie_id : Z) (new : list Star.t) : list change :=
  (DeletePlay movie_id ∘ Star.id
     <$> filter (λ s, Star.id s ∉ Star.id <$> new) (actors_of movie_id d))
  ++ (InsertPlay movie_id ∘ Star.id
     <$> filter (λ s, Star.id s ∉ Star.id <$> actors_of movie_id d) new).

(** Every actor of the movie whose id is not in the list has one join row
    to the movie, not several. *)
Definition leaving_once (d : DB) (movie_id : Z) (star_ids : list Z) : Prop :=
  ∀ s, s ∈ actors_of movie_id d → Star.id s ∉ star_ids →
       length (join_rows movie_id (Star.id s) d) = 1%nat.

(** The sample store with the join row of movie 3 and star 14 twice. *)
Definition dup_db : DB :=
  mkDB sample_movies sample_stars (sample_play ++ [Play.Row (Some 3) (Some 14) None]).

(** The store after [db_movie.actors = new] and the commit. *)
Definition actors_replaced (d : DB) (movie_id : Z) (new : list Star.t) : DB :=
  flush d
    ((DeletePlay movie_id ∘ Star.id
        <$> filter (λ s, Star.id s ∉ Star.id <$> new) (actors_of movie_id d))
     ++ (InsertPlay movie_id ∘ Star.id
        <$> filter (λ s, Star.id s ∉ Star.id <$> actors_of movie_id d) new)).

(** The movies of the year [y], and the durations that are not NULL. *)
Definition year_group (y : Z) (rows : list Movie.t) : list Movie.t :=
  filter (λ m, Movie.year m = y) rows.
Definition durations (rows : list Movie.t) : list Z := omap Movie.duration rows.

Definition total (ds : list Z) : Z := foldr Z.add 0 ds.

Definition is_min (ds : list Z) (o : option Z) : Prop :=
  match o with
  | None => ds = []
  | Some v => v ∈ ds ∧ ∀ x, x ∈ ds → v ≤ x
  end.

Definition is_max (ds : list Z) (o : option Z) : Prop :=
  match o with
  | None => ds = []
  | Some v => v ∈ ds ∧ ∀ x, x ∈ ds → x ≤ v
  end.

Definition is_avg (ds : list Z) (o : option Q) : Prop :=
  match o with
  | None => ds = []
  | Some q => ds ≠ [] ∧ Qeq q (Qdiv (inject_Z (total ds)) (inject_Z (Z.of_nat (length ds))))
  end.

(** [o] is the average of [ds] as the store holds it: the exact quotient,
    in lowest terms, rounded by [sql_number]. *)
Definition is_stored_avg (sql_number : Q → Q) (ds : list Z) (o : option Q) : Prop :=
  match o with
  | None => ds = []
  | Some q =>
      ds ≠ []
      ∧ q = sql_number (Qred (Qdiv (inject_Z (total ds))
                                   (inject_Z (Z.of_nat (length ds)))))
  end.

(** The accumulator [a] holds the aggregates of the rows [ms]. *)
Definition agg_ok (ms : list Movie.t) (a : agg) : Prop :=
  agg_count a = Z.of_nat (length ms)
  ∧ is_min (durations ms) (agg_min a)
  ∧ is_max (durations ms) (agg_max a)
  ∧ agg_sum a = total (durations ms)
  ∧ agg_values a = Z.of_nat (length (durations ms)).

(** The map [g] groups the rows [done]. *)
Definition grouped (done : list Movie.t) (g : gmap Z agg) : Prop :=
  ∀ y, match g !! y with
       | None => year_group y done = []
       | Some a => year_group y done ≠ [] ∧ agg_ok (year_group y done) a
       end.

(** Three movies of one year whose average duration, 302/3, has no
    finite decimal expansion. *)
Definition rounding_movies : list Movie.t :=
  [ Movie.Row 1 "A" 2000 (Some 100) None;
    Movie.Row 2 "B" 2000 (Some 101) None;
    Movie.Row 3 "C" 2000 (Some 101) None ].

(** The movies of the specification's example. *)
Definition example_movies : list Movie.t :=
  [ Movie.Row 1 "A" 1999 (Some 90) None;
    Movie.Row 2 "B" 1999 (Some 110) None;
    Movie.Row 3 "C" 2001 (Some 120) None ].

(** * Further functions of crud.py *)

(** ORDER BY movies.year on joined rows *)
Definition joined_year_asc (a b : Movie.t * Star.t) : Prop := year_asc a.1 b.1.
#[global] Instance joined_year_asc_dec : RelDecision joined_year_asc.
Proof. intros a b. unfold joined_year_asc. apply _. Defined.

(** ORDER BY stars.birthdate: dates compare by year, month, day, and the
    MySQL server of [database.py] sorts NULL before every date. *)
Definition date_le (a b : date) : Prop :=
  date_year a < date_year b
  ∨ (date_year a = date_year b
     ∧ (date_month a < date_month b
        ∨ (date_month a = date_month b ∧ date_day a ≤ date_day b))).
#[global] Instance date_le_dec : RelDecision date_le.
Proof. intros a b. unfold date_le. apply _. Defined.

Definition birthdate_asc (a b : Star.t) : Prop :=
  match Star.birthdate a, Star.birthdate b with
  | None, _ => True
  | Some _, None => False
  | Some x, Some y => date_le x y
  end.
#[global] Instance birthdate_asc_dec : RelDecision birthdate_asc.
Proof.
  intros a b. unfold birthdate_asc.
  destruct (Star.birthdate a), (Star.birthdate b); apply _.
Defined.

(** _get_stars_by_predicate takes any number of predicates; the filter
    keeps the rows on which every one holds. *)
Definition _get_stars_by_predicate (predicate : list (Star.t → bool)) (d : DB)
  : list Star.t :=
  filter (λ s, Forall (λ p, p s = true) predicate) (stars d).

Section LikeQueries.
Variable collate : ascii → ascii → bool.
Variable escape : option ascii.

Definition get_movies_by_director_name (director_name : string) : M (list Movie.t) :=
  query (λ d, unique Movie.id
                (fst <$> merge_sort joined_year_asc
                           (filter (λ ms, like collate escape (Star.name ms.2)
                                               ("%" ++ director_name ++ "%") = true)
                                   (join_director d)))).

(** The query is run when the comprehension iterates over it; every
    [db_movie.director] is then read through the relationship. *)
Definition get_director_by_movie_title (movie_title : string)
  : M (list (option Star.t)) :=
  db_movies ← query (λ d, unique Movie.id
                            (fst <$> filter (λ ms, like collate escape (Movie.title ms.1)
                                                        ("%" ++ movie_title ++ "%") = true)
                                            (join_director d)));
  query (λ d, (λ db_movie, director_of db_movie d) <$> db_movies).

Definition get_stars_by_endname (name : string) : M (list Star.t) :=
  query (λ d, merge_sort birthdate_asc
                (_get_stars_by_predicate
                   [λ s, like collate escape (Star.name s) ("%" ++ name)] d)).

(** [column] holds [text] somewhere, characters compared by the
    collation. *)
Definition contains (column text : string) : Prop :=
  ∃ p r q, list_ascii_of_string column = p ++ r ++ q
           ∧ Forall2 (λ c x, collate c x = true) (list_ascii_of_string text) r.
End LikeQueries.

(** ORDER BY stars.name follows the collation of the column, which is a
    setting of the store: the order is a parameter. *)
Section NameOrder.
Variable name_le : string → string → Prop.
Context `{!RelDecision name_le}.

Definition name_asc (a b : Star.t) : Prop := name_le (Star.name a) (Star.name b).
#[global] Instance name_asc_dec : RelDecision name_asc.
Proof. intros a b. unfold name_asc. apply _. Defined.

(** extract('year', birthdate) is NULL on a NULL birthdate, and NULL == year
    keeps no row. *)
Definition get_stars_by_birthyear (year : Z) : M (list Star.t) :=
  query (λ d, merge_sort name_asc
                (_get_stars_by_predicate
                   [λ s, bool_decide (date_year <$> Star.birthdate s = Some year)] d)).
End NameOrder.

(** *** GROUP BY star

    The joined rows are scanned once; every row is appended to the group of
    its star, a new star opens a group.  The aggregates are then taken on
    each group. *)
Fixpoint tally (st : Star.t) (m : Movie.t) (g : list (Star.t * list Movie.t))
  : list (Star.t * list Movie.t) :=
  match g with
  | [] => [(st, [m])]
  | (k, ms) :: g' =>
      if decide (k = st) then (k, ms ++ [m]) :: g' else (k, ms) :: tally st m g'
  end.

Definition group_by_star (rows : list (Movie.t * Star.t))
  : list (Star.t * list Movie.t) :=
  foldl (λ g ms, tally ms.2 ms.1 g) [] rows.

(** ORDER BY movie_count DESC *)
Definition count_desc (a b : Star.t * Z) : Prop := b.2 ≤ a.2.
#[global] Instance count_desc_dec : RelDecision count_desc.
Proof. intros a b. unfold count_desc. apply _. Defined.

(** The rows (star, movie_count) of [.all()]; the rows of different groups
    differ, so the ORM has nothing to de-duplicate. *)
Definition get_stats_movie_by_director (min_count : Z) : M (list (Star.t * Z)) :=
  query (λ d, merge_sort count_desc
                (filter (λ sc, min_count ≤ sc.2)
                        ((λ g : Star.t * list Movie.t, (g.1, Z.of_nat (length g.2)))
                           <$> group_by_star (join_director d)))).

Module ActorStat.
(** The dictionaries of [get_stats_movie_by_actor]. *)
Record t := Stat {
  actor : Star.t;
  movie_count : Z;
  year_first_movie : option Z;
  year_last_movie : option Z
}.
End ActorStat.

(** min and max of a column that is never NULL: None only on no row. *)
Definition sql_min (l : list Z) : option Z :=
  match l with [] => None | x :: l' => Some (foldl Z.min x l') end.
Definition sql_max (l : list Z) : option Z :=
  match l with [] => None | x :: l' => Some (foldl Z.max x l') end.

Definition actor_count_desc (a b : ActorStat.t) : Prop :=
  ActorStat.movie_count b ≤ ActorStat.movie_count a.
#[global] Instance actor_count_desc_dec : RelDecision actor_count_desc.
Proof. intros a b. unfold actor_count_desc. apply _. Defined.

Definition get_stats_movie_by_actor (min_count : Z) : M (list ActorStat.t) :=
  query (λ d, merge_sort actor_count_desc
                (filter (λ r, min_count ≤ ActorStat.movie_count r)
                        ((λ g : Star.t * list Movie.t,
                            ActorStat.Stat g.1 (Z.of_nat (length g.2))
                                           (sql_min (Movie.year <$> g.2))
                                           (sql_max (Movie.year <$> g.2)))
                           <$> group_by_star (join_actors d)))).

(** ** Vocabulary of the further statements *)

(** The movies a star directs, and the join rows that make a star an actor
    of a movie, in table order. *)
Definition directed_by (d : DB) (st : Star.t) : list Movie.t :=
  filter (λ m, Movie.id_director m = Some (Star.id st)) (movies d).

(** A movie whose director key points to a row of "stars". *)
Definition has_director (d : DB) (m : Movie.t) : Prop :=
  ∃ st, st ∈ stars d ∧ Movie.id_director m = Some (Star.id st).

(** The movie of every join row of "play" that names the star, in the
    order of the join. *)
Definition played_in (d : DB) (st : Star.t) : list Movie.t :=
  m ← movies d; p ← play d;
  if decide (Play.id_movie p = Some (Movie.id m) ∧ Play.id_actor p = Some (Star.id st))
  then [m] else [].

(** The group of a star in a grouping, empty when it has none. *)
Fixpoint members (st : Star.t) (g : list (Star.t * list Movie.t)) : list Movie.t :=
  match g with
  | [] => []
  | (k, ms) :: g' => if decide (k = st) then ms else members st g'
  end.

(** The session [s'] has the movie ids and the stars of [d] and an empty
    unit of work; primary keys of [d] are still primary keys. *)
Definition keeps_entities (d : DB) (s' : Session) : Prop :=
  Movie.id <$> movies (store s') = Movie.id <$> movies d
  ∧ stars (store s') = stars d
  ∧ pending s' = []
  ∧ (primary_keys d → primary_keys (store s')).

(** * Properties *)

(** ** Ordering *)

#[global] Instance year_asc_total : Total year_asc.
Proof. intros a b. unfold year_asc. lia. Qed.
#[global] Instance year_asc_trans : Transitive year_asc.
Proof. intros a b c. unfold year_asc. lia. Qed.
#[global] Instance year_desc_total : Total year_desc.
Proof. intros a b. unfold year_desc. lia. Qed.
#[global] Instance year_desc_trans : Transitive year_desc.
Proof. intros a b c. unfold year_desc. lia. Qed.
#[global] Instance joined_year_desc_total : Total joined_year_desc.
Proof. intros a b. unfold joined_year_desc, year_desc. lia. Qed.
#[global] Instance joined_year_desc_trans : Transitive joined_year_desc.
Proof. intros a b c. unfold joined_year_desc, year_desc. lia. Qed.
#[global] Instance group_asc_total : Total group_asc.
Proof. intros a b. unfold group_asc. lia. Qed.
#[global] Instance group_asc_trans : Transitive group_asc.
Proof. intros a b c. unfold group_asc. lia. Qed.

Lemma order_by_year_perm l : order_by_year l ≡ₚ l.
Proof. apply merge_sort_Permutation. Qed.

Lemma order_by_year_sorted l : StronglySorted year_asc (order_by_year l).
Proof. apply StronglySorted_merge_sort; apply _. Qed.

Lemma order_by_year_desc_perm l : order_by_year_desc l ≡ₚ l.
Proof. apply merge_sort_Permutation. Qed.

Lemma order_by_year_desc_sorted l : StronglySorted year_desc (order_by_year_desc l).
Proof. apply StronglySorted_merge_sort; apply _. Qed.

(** ** Year range *)

(** C1: with only a lower bound the result is the movies of that year or
    later, ascending; with only an upper bound the movies of that year or
    earlier, descending; with both the movies between the bounds
    (inclusive), ascending.  The session is left as it was. *)
Theorem range_year_filters_and_sorts (s : Session) (lo hi : Z) :
  (∃ l, get_movies_by_range_year (Some lo) None s = (Returned (Some l), s)
        ∧ l ≡ₚ filter (λ m, lo ≤ Movie.year m) (movies (store s))
        ∧ StronglySorted year_asc l)
  ∧ (∃ l, get_movies_by_range_year None (Some hi) s = (Returned (Some l), s)
        ∧ l ≡ₚ filter (λ m, Movie.year m ≤ hi) (movies (store s))
        ∧ StronglySorted year_desc l)
  ∧ (∃ l, get_movies_by_range_year (Some lo) (Some hi) s = (Returned (Some l), s)
        ∧ l ≡ₚ filter (λ m, lo ≤ Movie.year m ∧ Movie.year m ≤ hi) (movies (store s))
        ∧ StronglySorted year_asc l).
Proof.
  split; [|split]; eexists; (split; [reflexivity|]); split;
    auto using order_by_year_perm, order_by_year_sorted,
               order_by_year_desc_perm, order_by_year_desc_sorted.
Qed.

(** C5: without any bound the function returns None, which is not the
    empty list, and leaves the session as it was. *)
Theorem range_year_no_bound_is_none (s : Session) :
  ∃ r, get_movies_by_range_year None None s = (Returned r, s)
       ∧ r = None ∧ r ≠ Some [].
Proof. exists None. repeat split. discriminate. Qed.

(** ** Rows and keys *)

Section First.
Context {A : Type} (key : A → Z).

Lemma first_by_key_None (k : Z) (l : list A) :
  head (filter (λ x, key x = k) l) = None ↔ k ∉ key <$> l.
Proof.
  rewrite head_None. split.
  - intros Hnil Hin. apply list_elem_of_fmap in Hin as (x & -> & Hx).
    by eapply (filter_nil_not_elem_of (λ x0, key x0 = key x)).
  - intros Hnot. destruct (filter _ l) as [|x l'] eqn:E; [done|].
    assert (x ∈ filter (λ x, key x = k) l) as Hx by (rewrite E; left).
    apply list_elem_of_filter in Hx as [<- Hx].
    destruct Hnot. by apply list_elem_of_fmap_2.
Qed.

Lemma first_by_key_Some (k : Z) (l : list A) (x : A) :
  head (filter (λ x, key x = k) l) = Some x → x ∈ l ∧ key x = k.
Proof.
  intros H. apply head_Some_elem_of, list_elem_of_filter in H. tauto.
Qed.

Lemma first_by_key_is_Some (k : Z) (l : list A) :
  k ∈ key <$> l → ∃ x, head (filter (λ x, key x = k) l) = Some x.
Proof.
  intros Hin. destruct (head _) as [x|] eqn:E; [eauto|].
  by apply first_by_key_None in E.
Qed.

Lemma key_inj (l : list A) (x y : A) :
  NoDup (key <$> l) → x ∈ l → y ∈ l → key x = key y → x = y.
Proof.
  induction l as [|a l IH]; intros Hnd Hx Hy Hk; [by apply elem_of_nil in Hx|].
  rewrite fmap_cons in Hnd. apply NoDup_cons in Hnd as [Ha Hnd].
  apply elem_of_cons in Hx as [->|Hx]; apply elem_of_cons in Hy as [->|Hy]; auto.
  - destruct Ha. rewrite Hk. by apply list_elem_of_fmap_2.
  - destruct Ha. rewrite <- Hk. by apply list_elem_of_fmap_2.
Qed.

(** *** De-duplication by key *)

Lemma unique_from_elem_of (seen : gset Z) (l : list A) (x : A) :
  x ∈ unique_from key seen l → x ∈ l ∧ key x ∉ seen.
Proof.
  revert seen. induction l as [|a l IH]; intros seen; simpl.
  - intros H. by apply elem_of_nil in H.
  - destruct (decide (key a ∈ seen)) as [Hin|Hnin].
    + intros H. apply IH in H as [? ?]. split; [by right|done].
    + intros H. apply elem_of_cons in H as [->|H].
      * split; [by left|done].
      * apply IH in H as [? Hn]. split; [by right|set_solver].
Qed.

Lemma unique_from_covers (seen : gset Z) (l : list A) (x : A) :
  x ∈ l → key x ∉ seen → ∃ y, y ∈ unique_from key seen l ∧ key y = key x.
Proof.
  revert seen. induction l as [|a l IH]; intros seen Hx Hseen; simpl.
  - by apply elem_of_nil in Hx.
  - destruct (decide (key a ∈ seen)) as [Hin|Hnin].
    + apply elem_of_cons in Hx as [->|Hx]; [done|]. by apply IH.
    + destruct (decide (key x = key a)) as [Heq|Hne].
      * exists a. split; [by left|done].
      * apply elem_of_cons in Hx as [->|Hx]; [done|].
        destruct (IH ({[key a]} ∪ seen) Hx) as (y & Hy & Hk); [set_solver|].
        exists y. split; [by right|done].
Qed.

Lemma unique_from_NoDup (seen : gset Z) (l : list A) :
  NoDup (key <$> unique_from key seen l).
Proof.
  revert seen. induction l as [|a l IH]; intros seen; simpl; [constructor|].
  destruct (decide (key a ∈ seen)); [apply IH|].
  rewrite fmap_cons. apply NoDup_cons. split; [|apply IH].
  intros Hin. apply list_elem_of_fmap in Hin as (y & Hk & Hy).
  apply unique_from_elem_of in Hy as [_ Hy]. set_solver.
Qed.

Lemma unique_from_sorted (R : relation A) (seen : gset Z) (l : list A) :
  StronglySorted R l → StronglySorted R (unique_from key seen l).
Proof.
  intros Hs. revert seen.
  induction Hs as [|a l Hs IH Hall]; intros seen; simpl; [constructor|].
  destruct (decide (key a ∈ seen)); [apply IH|].
  constructor; [apply IH|].
  rewrite Forall_forall in Hall |- *. intros y Hy. apply Hall.
  by apply unique_from_elem_of in Hy as [? _].
Qed.

Lemma elem_of_unique (l : list A) (x : A) :
  x ∈ unique key l → x ∈ l.
Proof. intros H. by apply unique_from_elem_of in H as [? _]. Qed.

Lemma unique_covers (l : list A) (x : A) :
  x ∈ l → ∃ y, y ∈ unique key l ∧ key y = key x.
Proof. intros H. apply unique_from_covers; [done|set_solver]. Qed.
End First.

Lemma movie_by_id_None movie_id d :
  movie_by_id movie_id d = None ↔ ¬ movie_exists movie_id d.
Proof. apply first_by_key_None. Qed.

Lemma movie_by_id_Some movie_id d m :
  movie_by_id movie_id d = Some m → m ∈ movies d ∧ Movie.id m = movie_id.
Proof. apply first_by_key_Some. Qed.

Lemma movie_by_id_is_Some movie_id d :
  movie_exists movie_id d → ∃ m, movie_by_id movie_id d = Some m.
Proof. apply first_by_key_is_Some. Qed.

Lemma star_by_id_None star_id d :
  star_by_id star_id d = None ↔ ¬ star_exists star_id d.
Proof. apply first_by_key_None. Qed.

Lemma star_by_id_Some star_id d st :
  star_by_id star_id d = Some st → st ∈ stars d ∧ Star.id st = star_id.
Proof. apply first_by_key_Some. Qed.

Lemma star_by_id_is_Some star_id d :
  star_exists star_id d → ∃ st, star_by_id star_id d = Some st.
Proof. apply first_by_key_is_Some. Qed.

(** ** LIKE patterns *)

Lemma list_ascii_of_string_app (a b : string) :
  list_ascii_of_string (a ++ b) = list_ascii_of_string a ++ list_ascii_of_string b.
Proof. induction a as [|c a IH]; simpl; [done|]. by rewrite IH. Qed.

Section LikeFacts.
Variable collate : ascii → ascii → bool.
Variable escape : option ascii.

Abbreviation like_match := (like_match collate escape).
Abbreviation like := (like collate escape).
Abbreviation matches := (Forall2 (λ c x, collate c x = true)).

Lemma like_match_percent (pat s : list ascii) :
  like_match ("%"%char :: pat) s
  = like_match pat s
    || match s with [] => false | _ :: s' => like_match ("%"%char :: pat) s' end.
Proof. destruct s; reflexivity. Qed.

(** "%" followed by [pat] matches the strings that have a tail matching
    [pat]. *)
Lemma like_match_percent_iff (pat s : list ascii) :
  like_match ("%"%char :: pat) s = true
  ↔ ∃ p r, s = p ++ r ∧ like_match pat r = true.
Proof.
  induction s as [|x s IH]; rewrite like_match_percent, orb_true_iff.
  - split.
    + intros [H|H]; [|done]. by exists [], [].
    + intros (p & r & Hs & H). left.
      symmetry in Hs. apply app_eq_nil in Hs as [_ ->]. done.
  - rewrite IH. split.
    + intros [H|(p & r & -> & H)].
      * by exists [], (x :: s).
      * by exists (x :: p), r.
    + intros (p & r & Hs & H). destruct p as [|y p]; simpl in Hs.
      * left. by subst r.
      * right. injection Hs as -> ->. by exists p, r.
Qed.

Lemma like_match_literal (c : ascii) (pat s : list ascii) :
  wildcard c = false → is_escape escape c = false →
  like_match (c :: pat) s
  = match s with [] => false | x :: s' => collate c x && like_match pat s' end.
Proof.
  unfold wildcard. intros [H1 H2]%orb_false_iff He. simpl.
  rewrite H1, H2. destruct pat, s; try reflexivity. by rewrite He.
Qed.

(** A pattern without special characters matches character by character. *)
Lemma like_match_plain (pat s : list ascii) :
  Forall (λ c, wildcard c = false ∧ is_escape escape c = false) pat →
  like_match pat s = true ↔ matches pat s.
Proof.
  intros Hp. revert s. induction Hp as [|c pat [Hw He] Hp IH]; intros s.
  - destruct s; simpl.
    + split; [constructor|done].
    + split; [done|]. intros H. inversion H.
  - rewrite like_match_literal by done. destruct s as [|x s].
    + split; [done|]. intros H. inversion H.
    + rewrite andb_true_iff, IH. split.
      * intros [? ?]. by constructor.
      * intros H. inversion H; subst. done.
Qed.

(** The pattern "%text" of [get_movies_by_actor_endname], for a text
    without special characters, is the suffix test. *)
Lemma like_suffix (name text : string) :
  plain escape text →
  like name ("%" ++ text) = true ↔ ends_with collate name text.
Proof.
  intros Hp. unfold like, ends_with.
  change (list_ascii_of_string ("%" ++ text))
    with ("%"%char :: list_ascii_of_string text).
  rewrite like_match_percent_iff.
  split; intros (p & r & Hs & H); exists p, r; (split; [done|]);
    by apply (like_match_plain _ _ Hp).
Qed.

(** The pattern "%%" matches every string. *)
Lemma like_any (column : string) : like column ("%" ++ "" ++ "%") = true.
Proof.
  unfold like.
  change (list_ascii_of_string ("%" ++ "" ++ "%")) with ["%"%char; "%"%char].
  apply like_match_percent_iff.
  exists [], (list_ascii_of_string column). split; [done|].
  apply like_match_percent_iff.
  exists (list_ascii_of_string column), []. split; [by rewrite app_nil_r|done].
Qed.

(** C10: with the empty text, [get_movies_by_title] returns every movie
    of the store, descending by year, and leaves the session as it was. *)
Theorem empty_title_returns_all (s : Session) :
  ∃ l, get_movies_by_title collate escape "" s = (Returned l, s)
       ∧ l ≡ₚ movies (store s)
       ∧ StronglySorted year_desc l.
Proof.
  eexists. split; [reflexivity|]. split; [|apply order_by_year_desc_sorted].
  rewrite order_by_year_desc_perm.
  induction (movies (store s)) as [|m l IH]; [done|].
  rewrite filter_cons_True by apply like_any. by rewrite IH.
Qed.
End LikeFacts.

(** ** The actors of a movie *)

Lemma elem_of_join_actors d m s :
  (m, s) ∈ join_actors d ↔ m ∈ movies d ∧ acts_in d s (Movie.id m).
Proof.
  unfold join_actors, acts_in. rewrite list_elem_of_bind. split.
  - intros (m' & H & Hm). apply list_elem_of_bind in H as (p & H & Hp).
    apply list_elem_of_bind in H as (s' & H & Hs).
    destruct (decide _) as [[? ?]|]; [|by apply elem_of_nil in H].
    apply list_elem_of_singleton in H. injection H as -> ->. eauto 10.
  - intros (Hm & Hs & p & Hp & H1 & H2). exists m. split; [|done].
    apply list_elem_of_bind. exists p. split; [|done].
    apply list_elem_of_bind. exists s. split; [|done].
    rewrite decide_True by done. by apply list_elem_of_singleton.
Qed.

Lemma elem_of_joined_stars d movie_id s :
  s ∈ (p ← play d; s ← stars d;
       if decide (Play.id_movie p = Some movie_id ∧ Play.id_actor p = Some (Star.id s))
       then [s] else [])
  ↔ acts_in d s movie_id.
Proof.
  unfold acts_in. rewrite list_elem_of_bind. split.
  - intros (p & H & Hp). apply list_elem_of_bind in H as (s' & H & Hs).
    destruct (decide _) as [[? ?]|]; [|by apply elem_of_nil in H].
    apply list_elem_of_singleton in H. subst s'. eauto 10.
  - intros (Hs & p & Hp & H1 & H2). exists p. split; [|done].
    apply list_elem_of_bind. exists s. split; [|done].
    rewrite decide_True by done. by apply list_elem_of_singleton.
Qed.

Lemma actors_of_acts_in d movie_id s :
  s ∈ actors_of movie_id d → acts_in d s movie_id.
Proof. intros H. by apply elem_of_unique, elem_of_joined_stars in H. Qed.

Lemma actors_of_ids d movie_id sid :
  sid ∈ Star.id <$> actors_of movie_id d
  ↔ ∃ s, acts_in d s movie_id ∧ Star.id s = sid.
Proof.
  rewrite list_elem_of_fmap. split.
  - intros (s & -> & Hs). eauto using actors_of_acts_in.
  - intros (s & Hs & <-). apply elem_of_joined_stars in Hs.
    apply (unique_covers Star.id) in Hs as (y & Hy & Hk). eauto.
Qed.

Lemma elem_of_actors_of d movie_id s :
  NoDup (Star.id <$> stars d) →
  s ∈ actors_of movie_id d ↔ acts_in d s movie_id.
Proof.
  intros Hpk. split; [apply actors_of_acts_in|]. intros Hs.
  assert (Star.id s ∈ Star.id <$> actors_of movie_id d) as Hid
    by (apply actors_of_ids; eauto).
  apply list_elem_of_fmap in Hid as (y & Hk & Hy).
  assert (y = s) as ->; [|done].
  apply actors_of_acts_in in Hy as Hy'.
  eapply (key_inj Star.id); eauto; [apply Hy'|apply Hs].
Qed.

Lemma actors_of_NoDup d movie_id : NoDup (Star.id <$> actors_of movie_id d).
Proof. apply unique_from_NoDup. Qed.

(** ** Movies by the end of an actor's name *)

Section ActorEndname.
Variable collate : ascii → ascii → bool.
Variable escape : option ascii.

(** C8, amended: for a text without LIKE's special characters and a
    store whose ids are primary keys, the result is exactly the movies
    with an actor whose name ends with the text, descending by year. *)
Theorem actor_endname_plain_text (s : Session) (text : string) :
  plain escape text →
  primary_keys (store s) →
  ∃ l, get_movies_by_actor_endname collate escape text s = (Returned l, s)
       ∧ suffix_result collate (store s) text l.
Proof.
  intros Hplain [Hpkm Hpks]. eexists. split; [reflexivity|].
  set (d := store s).
  set (rows := merge_sort joined_year_desc
                 (filter (λ ms, like collate escape (Star.name ms.2) ("%" ++ text) = true)
                         (join_actors d))).
  assert (∀ m st, (m, st) ∈ rows
            ↔ m ∈ movies d ∧ st ∈ actors_of (Movie.id m) d
              ∧ ends_with collate (Star.name st) text) as Hrows.
  { intros m st. unfold rows. rewrite merge_sort_Permutation.
    rewrite list_elem_of_filter, elem_of_join_actors. simpl.
    rewrite like_suffix by done. rewrite elem_of_actors_of by done. tauto. }
  split; [|split].
  - intros m. split.
    + intros Hm. apply elem_of_unique, list_elem_of_fmap in Hm as ([m' st] & -> & Hin).
      apply Hrows in Hin as (? & ? & ?). eauto.
    + intros (Hm & st & Hst & Hend).
      assert (m ∈ (rows.*1)) as Hin.
      { apply list_elem_of_fmap. exists (m, st). split; [done|]. by apply Hrows. }
      apply (unique_covers Movie.id) in Hin as (y & Hy & Hk).
      assert (y = m) as ->; [|done].
      apply elem_of_unique, list_elem_of_fmap in Hy as Hy'.
      destruct Hy' as ([m' st'] & -> & Hin'). apply Hrows in Hin' as (? & _).
      by eapply (key_inj Movie.id).
  - apply unique_from_NoDup.
  - apply unique_from_sorted.
    apply (StronglySorted_fmap fst joined_year_desc year_desc); [done|].
    apply StronglySorted_merge_sort; apply _.
Qed.
End ActorEndname.

Lemma sample_db_primary_keys : primary_keys sample_db.
Proof. apply (bool_decide_unpack _). vm_compute. reflexivity. Qed.

Lemma actor_endname_plain_text_witness :
  plain backslash "Smith"
  ∧ primary_keys sample_db
  ∧ ∃ l, get_movies_by_actor_endname eqb_collation backslash "Smith" (fresh sample_db)
         = (Returned l, fresh sample_db)
         ∧ suffix_result eqb_collation sample_db "Smith" l.
Proof.
  assert (plain backslash "Smith") as Hp by (unfold plain; simpl; repeat constructor).
  assert (primary_keys sample_db) as Hk by (apply (bool_decide_unpack _); vm_compute; reflexivity).
  split; [exact Hp|]. split; [exact Hk|].
  exact (actor_endname_plain_text eqb_collation backslash (fresh sample_db) "Smith" Hp Hk).
Defined.

(** A name that ends with the one-character text [c] has [c] as its last
    character. *)
Lemma ends_with_char (name : string) (c : ascii) :
  ends_with eqb_collation name (String c EmptyString) →
  head (reverse (list_ascii_of_string name)) = Some c.
Proof.
  intros (p & r & Hn & Hm). simpl in Hm.
  inversion Hm as [|c' x t r' Hc Hr]; subst. inversion Hr; subst.
  apply Ascii.eqb_eq in Hc as <-.
  by rewrite Hn, reverse_app.
Qed.

(** C8, the claim as stated fails: LIKE reads "_" in the text as "any one
    character".  With the text "_" the function returns every movie that
    has an actor, and no actor's name ends with "_". *)
Lemma actor_endname_wildcard_counterexample :
  ¬ ∃ l, get_movies_by_actor_endname eqb_collation backslash "_" (fresh sample_db)
         = (Returned l, fresh sample_db)
         ∧ suffix_result eqb_collation sample_db "_" l.
Proof.
  intros (l & Heq & Hspec & _).
  assert (get_movies_by_actor_endname eqb_collation backslash "_" (fresh sample_db)
          = (Returned [Movie.Row 3 "Gladiator" 2000 (Some 155) (Some 11);
                       Movie.Row 1 "Heat" 1995 (Some 170) (Some 10);
                       Movie.Row 2 "Alien" 1979 (Some 117) None],
             fresh sample_db)) as Heval by (vm_compute; reflexivity).
  rewrite Heval in Heq. injection Heq as <-.
  destruct (proj1 (Hspec (Movie.Row 1 "Heat" 1995 (Some 170) (Some 10))))
    as (_ & st & Hst & Hend); [set_solver|].
  apply ends_with_char in Hend.
  assert (actors_of 1 sample_db = [Star.Row 12 "John Smith" None]) as Hact
    by (vm_compute; reflexivity).
  simpl in Hst. rewrite Hact in Hst. apply list_elem_of_singleton in Hst as ->.
  vm_compute in Hend. discriminate.
Qed.

(** ** The director of a movie *)

Lemma elem_of_join_director d m s :
  (m, s) ∈ join_director d
  ↔ m ∈ movies d ∧ s ∈ stars d ∧ Movie.id_director m = Some (Star.id s).
Proof.
  unfold join_director. rewrite list_elem_of_bind. split.
  - intros (m' & H & Hm). apply list_elem_of_bind in H as (s' & H & Hs).
    destruct (decide _); [|by apply elem_of_nil in H].
    apply list_elem_of_singleton in H. injection H as -> ->. done.
  - intros (Hm & Hs & Hd). exists m. split; [|done].
    apply list_elem_of_bind. exists s. split; [|done].
    rewrite decide_True by done. by apply list_elem_of_singleton.
Qed.

(** Whenever no movie of that id has a director row to join, the query
    yields no row and the attribute access on None raises. *)
Lemma director_of_missing_raises (s : Session) (movie_id : Z) :
  (∀ m st, m ∈ movies (store s) → st ∈ stars (store s) →
           Movie.id m = movie_id → Movie.id_director m ≠ Some (Star.id st)) →
  get_director_by_id_movie movie_id s = (Raised AttributeError, s).
Proof.
  intros Hno. unfold get_director_by_id_movie, mbind, session_bind, bind, query.
  destruct (head _) as [m|] eqn:E; [|done]. exfalso.
  apply head_Some_elem_of, list_elem_of_fmap in E as ([m' st] & -> & H).
  apply list_elem_of_filter in H as [Hid H]. simpl in Hid.
  apply elem_of_join_director in H as (Hm & Hs & Hd). by eapply Hno.
Qed.

(** When the function returns a star, the movie exists and the star is the
    row its director key points to. *)
Lemma director_of_returned (s : Session) (movie_id : Z) (st : Star.t) (s' : Session) :
  get_director_by_id_movie movie_id s = (Returned (Some st), s') →
  s' = s
  ∧ ∃ m, m ∈ movies (store s) ∧ Movie.id m = movie_id
         ∧ st ∈ stars (store s) ∧ Movie.id_director m = Some (Star.id st).
Proof.
  unfold get_director_by_id_movie, mbind, session_bind, bind, query, raise.
  destruct (head _) as [m|] eqn:E; [|done]. intros H. injection H as Hd <-.
  split; [done|]. exists m.
  apply head_Some_elem_of, list_elem_of_fmap in E as ([m' st'] & -> & H).
  apply list_elem_of_filter in H as [Hid H]. simpl in *.
  apply elem_of_join_director in H as (Hm & _ & _).
  unfold director_of in Hd. destruct (Movie.id_director m') as [sid|]; [|done].
  simpl in Hd. apply (first_by_key_Some Star.id) in Hd as [? <-]. done.
Qed.

(** C3, the code against the claim: for a movie that does not exist
    (id 99) and for a movie without director (id 2, "Alien") the function
    raises AttributeError instead of returning None. *)
Theorem director_of_missing_movie_raises :
  run (get_director_by_id_movie 99) sample_db = (Raised AttributeError, fresh sample_db)
  ∧ run (get_director_by_id_movie 2) sample_db = (Raised AttributeError, fresh sample_db).
Proof. split; vm_compute; reflexivity. Qed.

(** ** Flushing an update of a movie row *)

Ltac run_session :=
  unfold run, fresh, get_movie, get_star, assign, refresh, mbind, session_bind,
    bind, query, register, commit, raise, mret, session_ret, ret; simpl.

Arguments apply_change : simpl never.

Lemma update_movie_ids d m' :
  Movie.id <$> movies (apply_change d (UpdateMovie m')) = Movie.id <$> movies d.
Proof.
  unfold apply_change. simpl. induction (movies d) as [|a l IH]; [done|].
  rewrite !fmap_cons, IH. by destruct (decide _) as [->|].
Qed.

Lemma update_movie_exists d m' i :
  movie_exists i (apply_change d (UpdateMovie m')) ↔ movie_exists i d.
Proof. unfold movie_exists. by rewrite update_movie_ids. Qed.

Lemma update_movie_lookup d m' :
  movie_exists (Movie.id m') d →
  movie_by_id (Movie.id m') (apply_change d (UpdateMovie m')) = Some m'.
Proof.
  unfold movie_exists, movie_by_id, apply_change. simpl.
  induction (movies d) as [|a l IH]; intros Hin; [by apply elem_of_nil in Hin|].
  rewrite fmap_cons in *. destruct (decide (Movie.id a = Movie.id m')) as [Heq|Hne].
  - by rewrite filter_cons_True.
  - rewrite filter_cons_False by done. apply IH.
    apply elem_of_cons in Hin as [?|?]; [congruence|done].
Qed.

Lemma update_movie_lookup_other d m' i :
  i ≠ Movie.id m' →
  movie_by_id i (apply_change d (UpdateMovie m')) = movie_by_id i d.
Proof.
  intros Hi. unfold movie_by_id, apply_change. simpl.
  induction (movies d) as [|a l IH]; [done|].
  rewrite fmap_cons. destruct (decide (Movie.id a = Movie.id m')) as [Heq|Hne].
  - rewrite !filter_cons_False by congruence. apply IH.
  - destruct (decide (Movie.id a = i)).
    + by rewrite !filter_cons_True.
    + by rewrite !filter_cons_False.
Qed.

(** ** update_movie *)

(** C7: for a movie that exists, [update_movie] returns the row with the
    new title, year and duration and the old director key, commits it, and
    leaves the director, the actors, the tables "stars" and "play" and
    every other movie as they were; for an id that does not exist it
    returns None and the session is as it was. *)
Theorem update_movie_replaces_scalars (d : DB) (movie : schemas.Movie) :
  (movie_exists (schemas.id movie) d →
   ∃ m d',
     movie_by_id (schemas.id movie) d = Some m
     ∧ run (update_movie movie) d
       = (Returned (Some (Movie.Row (schemas.id movie) (schemas.title movie)
                                    (schemas.year movie) (schemas.duration movie)
                                    (Movie.id_director m))),
          fresh d')
     ∧ movie_by_id (schemas.id movie) d'
       = Some (Movie.Row (schemas.id movie) (schemas.title movie)
                         (schemas.year movie) (schemas.duration movie)
                         (Movie.id_director m))
     ∧ (∀ m', movie_by_id (schemas.id movie) d' = Some m' →
              director_of m' d' = director_of m d)
     ∧ actors_of (schemas.id movie) d' = actors_of (schemas.id movie) d
     ∧ stars d' = stars d ∧ play d' = play d
     ∧ ∀ i, i ≠ schemas.id movie → movie_by_id i d' = movie_by_id i d)
  ∧ (¬ movie_exists (schemas.id movie) d →
     run (update_movie movie) d = (Returned None, fresh d)).
Proof.
  split.
  - intros Hex. destruct (movie_by_id_is_Some _ _ Hex) as [m Hm].
    destruct (movie_by_id_Some _ _ _ Hm) as [_ Hid].
    set (m1 := Movie.set_title (schemas.title movie) m).
    set (m2 := Movie.set_year (schemas.year movie) m1).
    set (m3 := Movie.set_duration (schemas.duration movie) m2).
    exists m, (flush d [UpdateMovie m1; UpdateMovie m2; UpdateMovie m3]).
    assert (m3 = Movie.Row (schemas.id movie) (schemas.title movie)
                   (schemas.year movie) (schemas.duration movie)
                   (Movie.id_director m)) as <-
      by (unfold m3, m2, m1, Movie.set_duration; simpl; by rewrite Hid).
    assert (movie_by_id (schemas.id movie)
              (flush d [UpdateMovie m1; UpdateMovie m2; UpdateMovie m3]) = Some m3) as Hnew.
    { rewrite <- Hid. change (Movie.id m) with (Movie.id m3). simpl.
      apply (update_movie_lookup _ m3).
      change (Movie.id m3) with (Movie.id m). rewrite Hid.
      by rewrite !update_movie_exists. }
    split; [done|]. split; [|split; [done|split; [|split; [done|split; [done|split; [done|]]]]]].
    + unfold update_movie. run_session. by rewrite Hm.
    + intros m' Hm'. rewrite Hnew in Hm'. by injection Hm' as <-.
    + intros i Hi. simpl.
      rewrite !update_movie_lookup_other; [done|simpl; congruence..].
  - intros Hno. apply movie_by_id_None in Hno.
    unfold update_movie. run_session. by rewrite Hno.
Qed.

Lemma update_movie_replaces_scalars_witness :
  movie_exists 2 sample_db
  ∧ ¬ movie_exists 99 sample_db
  ∧ (∃ m d', movie_by_id 2 sample_db = Some m
       ∧ run (update_movie (schemas.mkMovie 2 "Aliens" 1986 (Some 137))) sample_db
         = (Returned (Some (Movie.Row 2 "Aliens" 1986 (Some 137) (Movie.id_director m))),
            fresh d')
       ∧ movie_by_id 2 d'
         = Some (Movie.Row 2 "Aliens" 1986 (Some 137) (Movie.id_director m)))
  ∧ run (update_movie (schemas.mkMovie 99 "Aliens" 1986 (Some 137))) sample_db
    = (Returned None, fresh sample_db).
Proof.
  assert (movie_exists 2 sample_db) as H2 by (apply (bool_decide_unpack _); vm_compute; reflexivity).
  assert (¬ movie_exists 99 sample_db) as H99 by (apply (bool_decide_unpack _); vm_compute; reflexivity).
  split; [exact H2|]. split; [exact H99|]. split.
  - destruct (proj1 (update_movie_replaces_scalars sample_db
                       (schemas.mkMovie 2 "Aliens" 1986 (Some 137))) H2)
      as (m & d' & Hm & Hrun & Hnew & _).
    exists m, d'. auto.
  - exact (proj2 (update_movie_replaces_scalars sample_db
                    (schemas.mkMovie 99 "Aliens" 1986 (Some 137))) H99).
Defined.

(** ** update_movie_director and add_movie_actor *)

(** C2: a missing movie gives "error_m"; an existing movie with a missing
    star gives "error_s", a different value; when both exist the movie's
    director key is set to the star, the change is committed, and the
    updated movie is returned. *)
Theorem update_movie_director_cases (d : DB) (movie_id director_id : Z) :
  (¬ movie_exists movie_id d →
   run (update_movie_director movie_id director_id) d
   = (Returned (inl "error_m"%string), fresh d))
  ∧ (movie_exists movie_id d → ¬ star_exists director_id d →
     run (update_movie_director movie_id director_id) d
     = (Returned (inl "error_s"%string), fresh d))
  ∧ (movie_exists movie_id d → star_exists director_id d →
     ∃ m st d',
       movie_by_id movie_id d = Some m
       ∧ star_by_id director_id d = Some st
       ∧ run (update_movie_director movie_id director_id) d
         = (Returned (inr (Movie.set_id_director (Some director_id) m)), fresh d')
       ∧ movie_by_id movie_id d' = Some (Movie.set_id_director (Some director_id) m)
       ∧ director_of (Movie.set_id_director (Some director_id) m) d' = Some st
       ∧ stars d' = stars d ∧ play d' = play d
       ∧ ∀ i, i ≠ movie_id → movie_by_id i d' = movie_by_id i d)
  ∧ "error_m"%string ≠ "error_s"%string.
Proof.
  split; [|split; [|split]].
  - intros Hno%movie_by_id_None.
    unfold update_movie_director. run_session. by rewrite Hno.
  - intros [m Hm]%movie_by_id_is_Some Hno%star_by_id_None.
    unfold update_movie_director. run_session. rewrite Hm. simpl. by rewrite Hno.
  - intros Hex Hst.
    destruct (movie_by_id_is_Some _ _ Hex) as [m Hm].
    destruct (star_by_id_is_Some _ _ Hst) as [st Hs].
    destruct (movie_by_id_Some _ _ _ Hm) as [_ Hid].
    destruct (star_by_id_Some _ _ _ Hs) as [_ Hsid].
    set (m' := Movie.set_id_director (Some director_id) m).
    exists m, st, (apply_change d (UpdateMovie m')).
    split; [done|]. split; [done|]. split; [|split; [|split; [|split; [done|split; [done|]]]]].
    + unfold update_movie_director. run_session. rewrite Hm. simpl.
      rewrite Hs. simpl. by rewrite Hsid.
    + assert (Movie.id m' = movie_id) as Hid' by done.
      rewrite <- Hid' at 1. apply (update_movie_lookup _ m'). by rewrite Hid'.
    + exact Hs.
    + intros i Hi. apply update_movie_lookup_other. simpl. congruence.
  - discriminate.
Qed.

Lemma sample_db_movie_2 : movie_exists 2 sample_db.
Proof. apply (bool_decide_unpack _). vm_compute. reflexivity. Qed.
Lemma sample_db_no_movie_99 : ¬ movie_exists 99 sample_db.
Proof. apply (bool_decide_unpack _). vm_compute. reflexivity. Qed.
Lemma sample_db_star_11 : star_exists 11 sample_db.
Proof. apply (bool_decide_unpack _). vm_compute. reflexivity. Qed.
Lemma sample_db_no_star_99 : ¬ star_exists 99 sample_db.
Proof. apply (bool_decide_unpack _). vm_compute. reflexivity. Qed.

Lemma update_movie_director_cases_witness :
  run (update_movie_director 99 11) sample_db
  = (Returned (inl "error_m"%string), fresh sample_db)
  ∧ run (update_movie_director 2 99) sample_db
    = (Returned (inl "error_s"%string), fresh sample_db)
  ∧ ∃ m st d',
      movie_by_id 2 sample_db = Some m
      ∧ star_by_id 11 sample_db = Some st
      ∧ run (update_movie_director 2 11) sample_db
        = (Returned (inr (Movie.set_id_director (Some 11) m)), fresh d')
      ∧ movie_by_id 2 d' = Some (Movie.set_id_director (Some 11) m).
Proof.
  split; [|split].
  - exact (proj1 (update_movie_director_cases sample_db 99 11) sample_db_no_movie_99).
  - exact (proj1 (proj2 (update_movie_director_cases sample_db 2 99))
             sample_db_movie_2 sample_db_no_star_99).
  - destruct (proj1 (proj2 (proj2 (update_movie_director_cases sample_db 2 11)))
                sample_db_movie_2 sample_db_star_11)
      as (m & st & d' & Hm & Hs & Hrun & Hnew & _).
    exists m, st, d'. auto.
Defined.

(** C9: when the movie or the star is missing, both functions return an
    error string and the session is what it was: the committed store and
    the unit of work are unchanged. *)
Theorem not_found_leaves_session (s : Session) (movie_id star_id : Z) :
  ¬ movie_exists movie_id (store s) ∨ ¬ star_exists star_id (store s) →
  ∃ e, (e = "error_m"%string ∨ e = "error_s"%string)
       ∧ update_movie_director movie_id star_id s = (Returned (inl e), s)
       ∧ add_movie_actor movie_id star_id s = (Returned (inl e), s).
Proof.
  intros Hmiss. unfold update_movie_director, add_movie_actor. run_session.
  destruct (movie_by_id movie_id (store s)) as [m|] eqn:Hm.
  - destruct (star_by_id star_id (store s)) as [st|] eqn:Hs.
    + destruct Hmiss as [Hno|Hno]; destruct Hno.
      * apply movie_by_id_Some in Hm as [Hm <-]. by apply list_elem_of_fmap_2.
      * apply star_by_id_Some in Hs as [Hs <-]. by apply list_elem_of_fmap_2.
    + exists "error_s"%string. auto.
  - exists "error_m"%string. auto.
Qed.

Lemma not_found_leaves_session_witness :
  ∃ e, (e = "error_m"%string ∨ e = "error_s"%string)
       ∧ update_movie_director 2 99 (fresh sample_db) = (Returned (inl e), fresh sample_db)
       ∧ add_movie_actor 2 99 (fresh sample_db) = (Returned (inl e), fresh sample_db).
Proof.
  apply (not_found_leaves_session (fresh sample_db) 2 99).
  right. apply (bool_decide_unpack _). vm_compute. reflexivity.
Defined.

(** ** Flushing deletions and insertions of join rows *)

Lemma flush_app d cs1 cs2 : flush d (cs1 ++ cs2) = flush (flush d cs1) cs2.
Proof. apply foldl_app. Qed.

Lemma flush_deletes d movie_id (ids : list Z) :
  movies (flush d (DeletePlay movie_id <$> ids)) = movies d
  ∧ stars (flush d (DeletePlay movie_id <$> ids)) = stars d
  ∧ ∀ p, p ∈ play (flush d (DeletePlay movie_id <$> ids))
         ↔ p ∈ play d
           ∧ ¬ (Play.id_movie p = Some movie_id
                ∧ ∃ sid, sid ∈ ids ∧ Play.id_actor p = Some sid).
Proof.
  revert d. induction ids as [|sid ids IH]; intros d.
  - split; [done|]. split; [done|]. intros p. simpl. split; [|tauto].
    intros Hp0. split; [done|]. intros (_ & sid & Hin & _). by apply elem_of_nil in Hin.
  - rewrite fmap_cons. change (flush d (?c :: ?cs)) with (flush (apply_change d c) cs).
    destruct (IH (apply_change d (DeletePlay movie_id sid))) as (Hm & Hs & Hp).
    split; [by rewrite Hm|]. split; [by rewrite Hs|]. intros p. rewrite Hp.
    unfold apply_change at 1. simpl. rewrite list_elem_of_filter.
    setoid_rewrite elem_of_cons. naive_solver.
Qed.

Lemma flush_inserts d movie_id (ids : list Z) :
  movies (flush d (InsertPlay movie_id <$> ids)) = movies d
  ∧ stars (flush d (InsertPlay movie_id <$> ids)) = stars d
  ∧ ∀ p, p ∈ play (flush d (InsertPlay movie_id <$> ids))
         ↔ p ∈ play d
           ∨ ∃ sid, sid ∈ ids ∧ p = Play.Row (Some movie_id) (Some sid) None.
Proof.
  revert d. induction ids as [|sid ids IH]; intros d.
  - split; [done|]. split; [done|]. intros p. simpl. split; [by left|].
    intros [Hp0|(sid & Hin & _)]; [done|by apply elem_of_nil in Hin].
  - rewrite fmap_cons. change (flush d (?c :: ?cs)) with (flush (apply_change d c) cs).
    destruct (IH (apply_change d (InsertPlay movie_id sid))) as (Hm & Hs & Hp).
    split; [by rewrite Hm|]. split; [by rewrite Hs|]. intros p. rewrite Hp.
    unfold apply_change at 1. simpl. rewrite elem_of_app, list_elem_of_singleton.
    setoid_rewrite elem_of_cons. naive_solver.
Qed.

Lemma actors_replaced_spec d movie_id (new : list Star.t) :
  movies (actors_replaced d movie_id new) = movies d
  ∧ stars (actors_replaced d movie_id new) = stars d
  ∧ ∀ p, p ∈ play (actors_replaced d movie_id new)
         ↔ (p ∈ play d
            ∧ ¬ (Play.id_movie p = Some movie_id
                 ∧ ∃ sid, Play.id_actor p = Some sid
                          ∧ sid ∈ Star.id <$> actors_of movie_id d
                          ∧ sid ∉ Star.id <$> new))
           ∨ ∃ sid, p = Play.Row (Some movie_id) (Some sid) None
                    ∧ sid ∈ Star.id <$> new
                    ∧ sid ∉ Star.id <$> actors_of movie_id d.
Proof.
  unfold actors_replaced. rewrite flush_app, !list_fmap_compose.
  set (dels := Star.id <$> filter _ (actors_of movie_id d)).
  set (ins := Star.id <$> filter _ new).
  destruct (flush_deletes d movie_id dels) as (Hm1 & Hs1 & Hp1).
  destruct (flush_inserts (flush d (DeletePlay movie_id <$> dels)) movie_id ins)
    as (Hm2 & Hs2 & Hp2).
  split; [by rewrite Hm2|]. split; [by rewrite Hs2|]. intros p.
  rewrite Hp2, Hp1.
  assert (∀ sid, sid ∈ dels ↔ sid ∈ Star.id <$> actors_of movie_id d
                              ∧ sid ∉ Star.id <$> new) as Hdels.
  { intros sid. unfold dels. rewrite !list_elem_of_fmap.
    setoid_rewrite list_elem_of_filter. setoid_rewrite list_elem_of_fmap. naive_solver. }
  assert (∀ sid, sid ∈ ins ↔ sid ∈ Star.id <$> new
                             ∧ sid ∉ Star.id <$> actors_of movie_id d) as Hins.
  { intros sid. unfold ins. rewrite !list_elem_of_fmap.
    setoid_rewrite list_elem_of_filter. setoid_rewrite list_elem_of_fmap. naive_solver. }
  setoid_rewrite Hdels. setoid_rewrite Hins. naive_solver.
Qed.

(** After the replacement the stars joined to the movie are the stars of
    the new collection. *)
Lemma actors_replaced_acts_in d movie_id (new : list Star.t) (s : Star.t) :
  (∀ x, x ∈ new → x ∈ stars d) →
  (∀ x y, x ∈ new → y ∈ stars d → Star.id y = Star.id x → y ∈ new) →
  acts_in (actors_replaced d movie_id new) s movie_id ↔ s ∈ new.
Proof.
  intros Hsub Hclosed.
  destruct (actors_replaced_spec d movie_id new) as (_ & Hs & Hp).
  unfold acts_in. rewrite Hs. setoid_rewrite Hp. split.
  - intros (Hin & p & [[Hp0 Hkeep]|(sid & -> & Hnew & _)] & Hm & Ha).
    + destruct (decide (Star.id s ∈ Star.id <$> new)) as [Hn|Hn].
      * apply list_elem_of_fmap in Hn as (x & Hk & Hx). eauto.
      * destruct Hkeep. split; [done|]. exists (Star.id s). split; [done|].
        split; [|done]. apply actors_of_ids. exists s. split; [|done].
        split; [done|]. eauto.
    + simpl in Ha. injection Ha as ->.
      apply list_elem_of_fmap in Hnew as (x & Hk & Hx). eauto.
  - intros Hnew. split; [by apply Hsub|].
    destruct (decide (Star.id s ∈ Star.id <$> actors_of movie_id d)) as [Ho|Ho].
    + apply actors_of_ids in Ho as (s0 & (_ & p & Hp0 & Hm & Ha) & Hk).
      exists p. rewrite Hk in Ha. split; [|done]. left. split; [done|].
      intros (_ & sid & Ha' & _ & Hn). rewrite Ha in Ha'. injection Ha' as <-.
      destruct Hn. by apply list_elem_of_fmap_2.
    + exists (Play.Row (Some movie_id) (Some (Star.id s)) None). split; [|done].
      right. exists (Star.id s). split; [done|]. split; [|done].
      by apply list_elem_of_fmap_2.
Qed.

(** The join rows of the other movies stay. *)
Lemma actors_replaced_other d movie_id (new : list Star.t) (s : Star.t) (i : Z) :
  i ≠ movie_id →
  acts_in (actors_replaced d movie_id new) s i ↔ acts_in d s i.
Proof.
  intros Hi. destruct (actors_replaced_spec d movie_id new) as (_ & Hs & Hp).
  unfold acts_in. rewrite Hs. setoid_rewrite Hp. split.
  - intros (Hin & p & [[Hp0 _]|(sid & -> & _)] & Hm & Ha); [eauto 10|].
    simpl in Hm. congruence.
  - intros (Hin & p & Hp0 & Hm & Ha). split; [done|]. exists p. split; [|done].
    left. split; [done|]. intros (Hm' & _). congruence.
Qed.

(** ** update_movie_actors *)

Lemma NoDup_keys_filter {A B} (f : A → B) (P : A → Prop) `{∀ x, Decision (P x)}
    (l : list A) :
  NoDup (f <$> l) → NoDup (f <$> filter P l).
Proof.
  intros Hnd. eapply sublist_NoDup; [exact Hnd|].
  apply fmap_sublist, sublist_filter.
Qed.

(** *** The row count of the flush *)

Lemma join_rows_delete_other d movie_id sid sid' :
  sid' ≠ sid →
  join_rows movie_id sid' (apply_change d (DeletePlay movie_id sid))
  = join_rows movie_id sid' d.
Proof.
  intros Hne. unfold join_rows, apply_change. simpl.
  rewrite list_filter_filter. apply list_filter_iff. intros p.
  split; [tauto|]. intros [Hm Ha]. split; [done|]. intros [_ Ha']. congruence.
Qed.

Lemma deleted_rows_app d cs1 cs2 :
  deleted_rows d (cs1 ++ cs2)
  = (deleted_rows d cs1 + deleted_rows (flush d cs1) cs2)%nat.
Proof.
  revert d. induction cs1 as [|c cs1 IH]; intros d; [done|].
  simpl. rewrite IH. change (flush d (c :: cs1)) with (flush (apply_change d c) cs1).
  lia.
Qed.

Lemma deletes_app cs1 cs2 : deletes (cs1 ++ cs2) = (deletes cs1 + deletes cs2)%nat.
Proof. induction cs1 as [|[] cs1 IH]; simpl; lia. Qed.

Lemma deleted_rows_inserts d movie_id (ids : list Z) :
  deleted_rows d (InsertPlay movie_id <$> ids) = 0%nat.
Proof. revert d. induction ids as [|sid ids IH]; intros d; [done|]. csimpl. by rewrite IH. Qed.

Lemma deletes_inserts movie_id (ids : list Z) :
  deletes (InsertPlay movie_id <$> ids) = 0%nat.
Proof. induction ids as [|sid ids IH]; [done|]. by csimpl. Qed.

Lemma deletes_deletes movie_id (ids : list Z) :
  deletes (DeletePlay movie_id <$> ids) = length ids.
Proof. induction ids as [|sid ids IH]; [done|]. csimpl. by rewrite IH. Qed.

(** DELETEs of different stars, each with one join row, match as many rows
    as there are statements. *)
Lemma deleted_rows_deletes d movie_id (ids : list Z) :
  NoDup ids →
  (∀ sid, sid ∈ ids → length (join_rows movie_id sid d) = 1%nat) →
  deleted_rows d (DeletePlay movie_id <$> ids) = length ids.
Proof.
  revert d. induction ids as [|sid ids IH]; intros d Hnd Hone; [done|].
  apply NoDup_cons in Hnd as [Hsid Hnd]. csimpl.
  rewrite (Hone sid) by left. rewrite IH; [done|done|].
  intros sid' Hin. rewrite join_rows_delete_other by (intros ->; done).
  apply Hone. by right.
Qed.

Lemma actor_changes_not_stale d movie_id (star_ids : list Z) :
  leaving_once d movie_id star_ids →
  stale d (actor_changes d movie_id (filter (λ s, Star.id s ∈ star_ids) (stars d)))
  = false.
Proof.
  intros Hone. unfold stale, actor_changes.
  rewrite deleted_rows_app, deletes_app, !list_fmap_compose.
  rewrite deleted_rows_inserts, deletes_inserts, deletes_deletes.
  rewrite deleted_rows_deletes.
  - rewrite !Nat.add_0_r. by rewrite Nat.eqb_refl.
  - apply NoDup_keys_filter, actors_of_NoDup.
  - intros sid (s & -> & [Hout Hs]%list_elem_of_filter)%list_elem_of_fmap.
    apply Hone; [done|]. intros Hin. apply Hout.
    apply list_elem_of_fmap_2, list_elem_of_filter. split; [done|].
    by apply actors_of_acts_in in Hs as [? _].
Qed.

(** *** The two outcomes for a movie that exists *)

Lemma update_movie_actors_run d movie_id star_ids m :
  movie_by_id movie_id d = Some m →
  stale d (actor_changes d movie_id (filter (λ s, Star.id s ∈ star_ids) (stars d)))
  = false →
  run (update_movie_actors movie_id star_ids) d
  = (Returned (Some m),
     fresh (actors_replaced d movie_id (filter (λ s, Star.id s ∈ star_ids) (stars d)))).
Proof.
  intros Hm Hfresh. destruct (movie_by_id_Some _ _ _ Hm) as [_ Hid].
  set (new := filter (λ s, Star.id s ∈ star_ids) (stars d)) in *.
  destruct (actors_replaced_spec d movie_id new) as (Hmovies & _).
  unfold update_movie_actors, set_actors. run_session. rewrite Hm. simpl.
  rewrite Hid. fold new. fold (actor_changes d movie_id new). rewrite Hfresh.
  change (flush d (actor_changes d movie_id new))
    with (actors_replaced d movie_id new). cbn [store].
  assert (movie_by_id movie_id (actors_replaced d movie_id new) = Some m) as ->; [|done].
  unfold movie_by_id in *. by rewrite Hmovies.
Qed.

Lemma update_movie_actors_stale d movie_id star_ids m :
  movie_by_id movie_id d = Some m →
  stale d (actor_changes d movie_id (filter (λ s, Star.id s ∈ star_ids) (stars d)))
  = true →
  run (update_movie_actors movie_id star_ids) d = (Raised StaleDataError, fresh d).
Proof.
  intros Hm Hstale. destruct (movie_by_id_Some _ _ _ Hm) as [_ Hid].
  set (new := filter (λ s, Star.id s ∈ star_ids) (stars d)) in *.
  unfold update_movie_actors, set_actors. run_session. rewrite Hm. simpl.
  rewrite Hid. fold new. fold (actor_changes d movie_id new). by rewrite Hstale.
Qed.

(** C4, amended: for a movie that exists and of which every actor that
    leaves the cast has one join row, not several, [update_movie_actors]
    commits and returns the movie; afterwards the stars joined to it are
    exactly the rows of "stars" whose id is in the list (ids without a star
    are dropped, no error), and every other movie keeps its actors.  For a
    movie that does not exist it returns None and the session is as it
    was. *)
Theorem update_movie_actors_replaces (d : DB) (movie_id : Z) (star_ids : list Z) :
  (movie_exists movie_id d → leaving_once d movie_id star_ids →
   ∃ m d',
     movie_by_id movie_id d = Some m
     ∧ run (update_movie_actors movie_id star_ids) d = (Returned (Some m), fresh d')
     ∧ movies d' = movies d ∧ stars d' = stars d
     ∧ (∀ s, acts_in d' s movie_id ↔ s ∈ stars d ∧ Star.id s ∈ star_ids)
     ∧ (∀ sid, sid ∈ Star.id <$> actors_of movie_id d'
               ↔ star_exists sid d ∧ sid ∈ star_ids)
     ∧ (NoDup (Star.id <$> stars d) →
        ∀ s, s ∈ actors_of movie_id d' ↔ s ∈ stars d ∧ Star.id s ∈ star_ids)
     ∧ NoDup (Star.id <$> actors_of movie_id d')
     ∧ ∀ i s, i ≠ movie_id → acts_in d' s i ↔ acts_in d s i)
  ∧ (¬ movie_exists movie_id d →
     run (update_movie_actors movie_id star_ids) d = (Returned None, fresh d)).
Proof.
  split.
  - intros Hex Hone. destruct (movie_by_id_is_Some _ _ Hex) as [m Hm].
    set (new := filter (λ s, Star.id s ∈ star_ids) (stars d)).
    set (d' := actors_replaced d movie_id new).
    destruct (actors_replaced_spec d movie_id new) as (Hmovies & Hstars & _).
    assert (∀ s, acts_in d' s movie_id ↔ s ∈ stars d ∧ Star.id s ∈ star_ids) as Hacts.
    { intros s. unfold d'. rewrite actors_replaced_acts_in.
      - unfold new. rewrite list_elem_of_filter. tauto.
      - intros x Hx. by apply list_elem_of_filter in Hx as [_ ?].
      - intros x y Hx Hy Hk. apply list_elem_of_filter in Hx as [Hx _].
        apply list_elem_of_filter. by rewrite Hk. }
    exists m, d'. split; [done|]. split; [|split; [done|split; [done|split; [done|]]]].
    + apply update_movie_actors_run; [done|]. by apply actor_changes_not_stale.
    + split; [|split; [|split]].
      * intros sid. rewrite actors_of_ids. unfold star_exists.
        rewrite list_elem_of_fmap. setoid_rewrite Hacts. naive_solver.
      * intros Hpk s. rewrite <- Hacts. apply elem_of_actors_of.
        unfold d'. by rewrite Hstars.
      * apply actors_of_NoDup.
      * intros i s Hi. by apply actors_replaced_other.
  - intros Hno%movie_by_id_None.
    unfold update_movie_actors. run_session. by rewrite Hno.
Qed.

Lemma update_movie_actors_replaces_witness :
  (∃ m d',
     movie_by_id 3 sample_db = Some m
     ∧ run (update_movie_actors 3 [12; 13; 99]) sample_db = (Returned (Some m), fresh d')
     ∧ ∀ sid, sid ∈ Star.id <$> actors_of 3 d'
              ↔ star_exists sid sample_db ∧ sid ∈ [12; 13; 99])
  ∧ run (update_movie_actors 99 [12; 13; 99]) sample_db = (Returned None, fresh sample_db).
Proof.
  split.
  - assert (movie_exists 3 sample_db) as H3
      by (apply (bool_decide_unpack _); vm_compute; reflexivity).
    assert (leaving_once sample_db 3 [12; 13; 99]) as Hone.
    { assert (Forall (λ s, Star.id s ∉ [12; 13; 99]
                           → length (join_rows 3 (Star.id s) sample_db) = 1%nat)
                     (actors_of 3 sample_db)) as Hall
        by (apply (bool_decide_unpack _); vm_compute; reflexivity).
      exact (proj1 (Forall_forall _ _) Hall). }
    destruct (proj1 (update_movie_actors_replaces sample_db 3 [12; 13; 99]) H3 Hone)
      as (m & d' & Hm & Hrun & _ & _ & _ & Hids & _).
    exists m, d'. auto.
  - apply (proj2 (update_movie_actors_replaces sample_db 99 [12; 13; 99])).
    apply (bool_decide_unpack _). vm_compute. reflexivity.
Defined.

(** C4, the claim as stated fails: "play" has no key, and on a store where
    the join row of movie 3 and star 14 is there twice, replacing the
    actors of movie 3 by star 12 does not return the movie: the DELETE for
    star 14 matches two rows, the flush raises StaleDataError and nothing
    is written. *)
Lemma update_movie_actors_duplicate_row_counterexample :
  movie_exists 3 dup_db
  ∧ run (update_movie_actors 3 [12]) dup_db = (Raised StaleDataError, fresh dup_db)
  ∧ ¬ ∃ m s', run (update_movie_actors 3 [12]) dup_db = (Returned (Some m), s').
Proof.
  assert (run (update_movie_actors 3 [12]) dup_db = (Raised StaleDataError, fresh dup_db))
    as Hrun by (vm_compute; reflexivity).
  split; [apply (bool_decide_unpack _); vm_compute; reflexivity|].
  split; [exact Hrun|]. intros (m & s' & H). rewrite Hrun in H. discriminate.
Qed.

(** ** Statistics by year *)

Lemma total_snoc ds v : total (ds ++ [v]) = total ds + v.
Proof. unfold total. induction ds as [|x ds IH]; simpl; lia. Qed.

Lemma durations_snoc ms m :
  durations (ms ++ [m])
  = durations ms ++ match Movie.duration m with Some v => [v] | None => [] end.
Proof. unfold durations. rewrite omap_app. simpl. by destruct (Movie.duration m). Qed.

Lemma agg_first_ok m : agg_ok [m] (agg_first (Movie.duration m)).
Proof.
  unfold agg_ok, agg_first, durations. simpl.
  destruct (Movie.duration m) as [v|]; simpl; repeat split; try done; try lia;
    try (by left); intros x ->%list_elem_of_singleton; lia.
Qed.

Lemma agg_next_ok ms a m :
  agg_ok ms a → agg_ok (ms ++ [m]) (agg_next a (Movie.duration m)).
Proof.
  intros (Hc & Hmin & Hmax & Hsum & Hn). unfold agg_ok, agg_next.
  rewrite durations_snoc, length_app. simpl.
  destruct (Movie.duration m) as [v|]; simpl.
  - rewrite total_snoc, length_app. simpl.
    split; [lia|]. split; [|split; [|split; lia]].
    + destruct (agg_min a) as [w|]; simpl in *.
      * destruct Hmin as [Hw Hle]. split.
        -- apply elem_of_app. destruct (Z.min_spec v w) as [[_ ->]|[_ ->]]; [right; by left|by left].
        -- intros x [Hx| ->%list_elem_of_singleton]%elem_of_app; [specialize (Hle x Hx)|]; lia.
      * rewrite Hmin. split; [by left|]. intros x ->%list_elem_of_singleton. lia.
    + destruct (agg_max a) as [w|]; simpl in *.
      * destruct Hmax as [Hw Hle]. split.
        -- apply elem_of_app. destruct (Z.max_spec v w) as [[_ ->]|[_ ->]]; [by left|right; by left].
        -- intros x [Hx| ->%list_elem_of_singleton]%elem_of_app; [specialize (Hle x Hx)|]; lia.
      * rewrite Hmax. split; [by left|]. intros x ->%list_elem_of_singleton. lia.
  - rewrite !app_nil_r. repeat split; try done; lia.
Qed.

Lemma year_group_snoc y done m :
  year_group y (done ++ [m])
  = year_group y done ++ (if decide (Movie.year m = y) then [m] else []).
Proof.
  unfold year_group. rewrite filter_app. f_equal.
Qed.

Lemma group_row_grouped done g m :
  grouped done g → grouped (done ++ [m]) (group_row g m).
Proof.
  intros Hg y. unfold group_row. rewrite year_group_snoc.
  specialize (Hg y). destruct (decide (Movie.year m = y)) as [<-|Hne].
  - rewrite lookup_insert_eq. destruct (g !! Movie.year m) as [a|].
    + destruct Hg as [Hne Ha]. split; [|by apply agg_next_ok].
      intros [? _]%app_eq_nil. done.
    + rewrite Hg. simpl. split; [done|apply agg_first_ok].
  - rewrite lookup_insert_ne by done. by rewrite app_nil_r.
Qed.

Lemma foldl_group_row_grouped rows done g :
  grouped done g → grouped (done ++ rows) (foldl group_row g rows).
Proof.
  revert done g. induction rows as [|m rows IH]; intros done g Hg; simpl.
  - by rewrite app_nil_r.
  - rewrite cons_middle, app_assoc. by apply IH, group_row_grouped.
Qed.

Lemma group_by_year_grouped rows : grouped rows (group_by_year rows).
Proof.
  apply (foldl_group_row_grouped rows [] ∅). intros y. by rewrite lookup_empty.
Qed.

Lemma sql_avg_ok sql_number ms a :
  agg_ok ms a → is_stored_avg sql_number (durations ms) (sql_avg sql_number a).
Proof.
  intros (_ & _ & _ & Hsum & Hn). unfold is_stored_avg, sql_avg.
  destruct (decide (agg_values a = 0)) as [Hz|Hnz].
  - rewrite Hz in Hn. destruct (durations ms); [done|simpl in Hn; lia].
  - split; [intros Hnil; rewrite Hnil in Hn; simpl in Hn; lia|].
    f_equal. apply Qred_complete. rewrite <- Hsum, <- Hn.
    rewrite <- (Z2Pos.id (agg_values a)) at 2 by lia.
    apply Qmake_Qdiv.
Qed.

(** Where the store holds the quotient as it is, the stored average is
    the average. *)
Lemma stored_avg_exact sql_number ds q :
  is_stored_avg sql_number ds (Some q) →
  (∀ x, sql_number x = x) →
  is_avg ds (Some q).
Proof.
  intros [Hne ->] Hexact. split; [done|]. rewrite Hexact. apply Qred_correct.
Qed.

Lemma sorted_le_NoDup_lt (l : list Z) :
  StronglySorted Z.le l → NoDup l → StronglySorted Z.lt l.
Proof.
  induction 1 as [|x l Hs IH Hall]; intros Hnd; constructor.
  - apply IH. by apply NoDup_cons in Hnd as [_ ?].
  - apply NoDup_cons in Hnd as [Hx _].
    rewrite Forall_forall in Hall |- *. intros y Hy.
    specialize (Hall y Hy). assert (x ≠ y) by (intros ->; done). lia.
Qed.

(** C6, amended: [get_count_movies_by_year] returns one record for every
    year that has a movie, in strictly ascending order of year; the count
    of a record is the number of movies of its year, its minimum and
    maximum are those of the durations of these movies, and its average is
    their average as the store holds it, rounded to the number type of the
    store (all three None when none of the movies has a duration).  On the
    example of the specification, with MySQL's four decimals, the result
    is the two records given there. *)
Theorem count_by_year_aggregates (sql_number : Q → Q) (s : Session) :
  (∃ r, get_count_movies_by_year sql_number s = (Returned r, s)
        ∧ StronglySorted Z.lt (stat_year <$> r)
        ∧ (∀ y, y ∈ stat_year <$> r ↔ ∃ m, m ∈ movies (store s) ∧ Movie.year m = y)
        ∧ ∀ st, st ∈ r →
            movie_count st
            = Z.of_nat (length (year_group (stat_year st) (movies (store s))))
            ∧ is_min (durations (year_group (stat_year st) (movies (store s))))
                     (min_duration st)
            ∧ is_max (durations (year_group (stat_year st) (movies (store s))))
                     (max_duration st)
            ∧ is_stored_avg sql_number
                (durations (year_group (stat_year st) (movies (store s))))
                (avg_duration st))
  ∧ (run (get_count_movies_by_year decimal4) (mkDB example_movies [] [])).1
    = Returned [ Stat 1999 2 (Some 90) (Some 110) (Some (Qmake 100 1));
                 Stat 2001 1 (Some 120) (Some 120) (Some (Qmake 120 1)) ].
Proof.
  split; [|vm_compute; reflexivity].
  set (g := group_by_year (movies (store s))).
  set (rows := merge_sort group_asc (map_to_list g)).
  pose proof (group_by_year_grouped (movies (store s))) as Hg. fold g in Hg.
  assert (∀ y a, (y, a) ∈ rows ↔ g !! y = Some a) as Hrows.
  { intros y a. unfold rows. rewrite merge_sort_Permutation.
    apply elem_of_map_to_list. }
  eexists. split; [reflexivity|]. fold g. fold rows.
  rewrite <- list_fmap_compose.
  change (stat_year ∘ _) with (fst : Z * agg → Z).
  split; [|split].
  - apply sorted_le_NoDup_lt.
    + apply (StronglySorted_fmap fst group_asc Z.le); [done|].
      apply StronglySorted_merge_sort; apply _.
    + unfold rows. rewrite merge_sort_Permutation. apply NoDup_fst_map_to_list.
  - intros y. rewrite list_elem_of_fmap. split.
    + intros ([y' a] & -> & Hin). apply Hrows in Hin. simpl.
      specialize (Hg y'). rewrite Hin in Hg.
      destruct Hg as [Hne _]. destruct (year_group y' _) as [|m l] eqn:E; [done|].
      assert (m ∈ year_group y' (movies (store s))) as Hm by (rewrite E; left).
      apply list_elem_of_filter in Hm as [? ?]. eauto.
    + intros (m & Hm & Hy). specialize (Hg y). destruct (g !! y) as [a|] eqn:E.
      * exists (y, a). split; [done|]. by apply Hrows.
      * exfalso. eapply (filter_nil_not_elem_of _ _ m Hg); eauto.
  - intros st Hst. apply list_elem_of_fmap in Hst as ([y a] & -> & Hin).
    apply Hrows in Hin. specialize (Hg y). rewrite Hin in Hg. simpl.
    destruct Hg as [_ Hok]. pose proof (sql_avg_ok sql_number _ _ Hok) as Havg.
    destruct Hok as (Hc & Hmin & Hmax & _). done.
Qed.

Lemma count_by_year_aggregates_witness :
  ∃ r, get_count_movies_by_year decimal4 (fresh sample_db) = (Returned r, fresh sample_db)
       ∧ Stat 1995 2 (Some 170) (Some 178) (Some (Qmake 174 1)) ∈ r
       ∧ movie_count (Stat 1995 2 (Some 170) (Some 178) (Some (Qmake 174 1)))
         = Z.of_nat (length (year_group 1995 (movies sample_db)))
       ∧ is_stored_avg decimal4 (durations (year_group 1995 (movies sample_db)))
                       (Some (Qmake 174 1)).
Proof.
  destruct (proj1 (count_by_year_aggregates decimal4 (fresh sample_db)))
    as (r & Hrun & _ & _ & Hall).
  exists r. split; [exact Hrun|].
  assert (Stat 1995 2 (Some 170) (Some 178) (Some (Qmake 174 1)) ∈ r) as Hin.
  { vm_compute in Hrun. injection Hrun as <-. right. left. }
  split; [exact Hin|].
  destruct (Hall _ Hin) as (Hc & _ & _ & Havg). split; [exact Hc|exact Havg].
Defined.

(** C6, the claim as stated fails: the store rounds the average.  For
    three movies of the year 2000 with the durations 100, 101 and 101 the
    record holds 100.6667 on MySQL, which is not their average 302/3. *)
Lemma count_by_year_avg_rounded_counterexample :
  ∃ r, run (get_count_movies_by_year decimal4) (mkDB rounding_movies [] [])
       = (Returned r, fresh (mkDB rounding_movies [] []))
       ∧ r = [Stat 2000 3 (Some 100) (Some 101) (Some (Qmake 1006667 10000))]
       ∧ ¬ ∀ st, st ∈ r →
             is_avg (durations (year_group (stat_year st) rounding_movies))
                    (avg_duration st).
Proof.
  eexists. split; [vm_compute; reflexivity|]. split; [reflexivity|].
  intros Hall. destruct (Hall _ (list_elem_of_here _ _)) as [_ Havg].
  vm_compute in Havg. discriminate.
Qed.

(** * Further properties *)

(** ** Lookups by id *)

(** [get_movie] returns None exactly when no movie has the id; otherwise
    it returns a row of "movies" with that id.  The session is as it was. *)
Theorem get_movie_found_iff_exists (s : Session) (movie_id : Z) :
  ∃ r, get_movie movie_id s = (Returned r, s)
       ∧ (r = None ↔ ¬ movie_exists movie_id (store s))
       ∧ ∀ m, r = Some m → m ∈ movies (store s) ∧ Movie.id m = movie_id.
Proof.
  exists (movie_by_id movie_id (store s)). split; [|split].
  - unfold get_movie. run_session. by destruct (movie_by_id _ _).
  - apply movie_by_id_None.
  - apply movie_by_id_Some.
Qed.

(** [get_star] returns None exactly when no star has the id; otherwise it
    returns a row of "stars" with that id. *)
Theorem get_star_found_iff_exists (s : Session) (star_id : Z) :
  ∃ r, get_star star_id s = (Returned r, s)
       ∧ (r = None ↔ ¬ star_exists star_id (store s))
       ∧ ∀ st, r = Some st → st ∈ stars (store s) ∧ Star.id st = star_id.
Proof.
  exists (star_by_id star_id (store s)). split; [done|]. split.
  - apply star_by_id_None.
  - apply star_by_id_Some.
Qed.

(** ** Year range, crossed bounds *)

(** With both bounds given and the lower above the upper, the result is
    the empty list (not None). *)
Theorem range_year_crossed_bounds_empty (s : Session) (lo hi : Z) :
  hi < lo →
  get_movies_by_range_year (Some lo) (Some hi) s = (Returned (Some []), s).
Proof.
  intros Hcross. unfold get_movies_by_range_year. run_session.
  assert (filter (λ m, lo ≤ Movie.year m ∧ Movie.year m ≤ hi) (movies (store s)) = [])
    as ->; [|done].
  induction (movies (store s)) as [|m l IH]; [done|].
  rewrite filter_cons_False by lia. done.
Qed.

Lemma range_year_crossed_bounds_empty_witness :
  get_movies_by_range_year (Some 2010) (Some 2000) (fresh sample_db)
  = (Returned (Some []), fresh sample_db).
Proof. apply (range_year_crossed_bounds_empty (fresh sample_db) 2010 2000). lia. Defined.

(** ** LIKE with a text in the middle of the pattern *)

Section LikeMore.
Variable collate : ascii → ascii → bool.
Variable escape : option ascii.

Abbreviation like_match := (like_match collate escape).
Abbreviation like := (like collate escape).
Abbreviation matches := (Forall2 (λ c x, collate c x = true)).

Lemma like_match_percent_all (s : list ascii) : like_match ["%"%char] s = true.
Proof.
  apply like_match_percent_iff. exists s, []. by rewrite app_nil_r.
Qed.

(** A run of plain characters at the head of a pattern consumes a head of
    the string that matches it character by character. *)
Lemma like_match_plain_head (t pat s : list ascii) :
  Forall (λ c, wildcard c = false ∧ is_escape escape c = false) t →
  like_match (t ++ pat) s = true
  ↔ ∃ r q, s = r ++ q ∧ matches t r ∧ like_match pat q = true.
Proof.
  intros Hp. revert s. induction Hp as [|c t [Hw He] Hp IH]; intros s.
  - simpl. split.
    + intros H. exists [], s. repeat split; [constructor|done].
    + intros (r & q & -> & Hm & H). inversion Hm; subst. done.
  - rewrite <- app_comm_cons, like_match_literal by done.
    destruct s as [|x s].
    + split; [done|]. intros (r & q & Hs & Hm & _).
      inversion Hm; subst. done.
    + rewrite andb_true_iff, IH. split.
      * intros (Hc & r & q & -> & Hm & H). exists (x :: r), q.
        repeat split; [by constructor|done].
      * intros (r & q & Hs & Hm & H). inversion Hm as [|? y ? r' Hc Hm']; subst.
        injection Hs as -> ->. eauto 10.
Qed.

(** The pattern "%text%", for a text without special characters, is the
    substring test. *)
Lemma like_substring (column text : string) :
  plain escape text →
  like column ("%" ++ text ++ "%") = true ↔ contains collate column text.
Proof.
  intros Hp. unfold like, contains.
  change (list_ascii_of_string ("%" ++ text ++ "%"))
    with ("%"%char :: list_ascii_of_string (text ++ "%")).
  rewrite list_ascii_of_string_app, like_match_percent_iff.
  change (list_ascii_of_string "%") with ["%"%char].
  split.
  - intros (p & r0 & -> & H). apply (like_match_plain_head _ _ _ Hp) in H
      as (r & q & -> & Hm & _). eauto.
  - intros (p & r & q & Hs & Hm). exists p, (r ++ q). split; [done|].
    apply (like_match_plain_head _ _ _ Hp). exists r, q.
    split; [done|]. split; [done|]. apply like_match_percent_all.
Qed.

(** For a text without LIKE's special characters, [get_movies_by_title]
    returns exactly the movies whose title holds the text, no row more
    often than the table has it, descending by year. *)
Theorem title_plain_text_substring (s : Session) (movie_title : string) :
  plain escape movie_title →
  ∃ l, get_movies_by_title collate escape movie_title s = (Returned l, s)
       ∧ (∀ m, m ∈ l ↔ m ∈ movies (store s)
                       ∧ contains collate (Movie.title m) movie_title)
       ∧ l ⊆+ movies (store s)
       ∧ StronglySorted year_desc l.
Proof.
  intros Hp. eexists. split; [reflexivity|].
  split; [|split; [|apply order_by_year_desc_sorted]].
  - intros m. rewrite order_by_year_desc_perm, list_elem_of_filter.
    rewrite like_substring by done. tauto.
  - rewrite order_by_year_desc_perm. apply sublist_submseteq, sublist_filter.
Qed.
End LikeMore.

(** ** Ordering of joined rows and of birthdates *)

#[global] Instance joined_year_asc_total : Total joined_year_asc.
Proof. intros a b. unfold joined_year_asc, year_asc. lia. Qed.
#[global] Instance joined_year_asc_trans : Transitive joined_year_asc.
Proof. intros a b c. unfold joined_year_asc, year_asc. lia. Qed.

#[global] Instance date_le_total : Total date_le.
Proof. intros [] []. unfold date_le. simpl. lia. Qed.
#[global] Instance date_le_trans : Transitive date_le.
Proof. intros [] [] []. unfold date_le. simpl. lia. Qed.

#[global] Instance birthdate_asc_total : Total birthdate_asc.
Proof.
  intros a b. unfold birthdate_asc.
  destruct (Star.birthdate a) as [x|], (Star.birthdate b) as [y|]; auto.
  apply date_le_total.
Qed.
#[global] Instance birthdate_asc_trans : Transitive birthdate_asc.
Proof.
  intros a b c. unfold birthdate_asc.
  destruct (Star.birthdate a) as [x|], (Star.birthdate b) as [y|],
    (Star.birthdate c) as [z|]; try done.
  apply date_le_trans.
Qed.

(** ** Joined rows and the de-duplicated result *)

Lemma director_of_Some d m st :
  director_of m d = Some st →
  st ∈ stars d ∧ Movie.id_director m = Some (Star.id st).
Proof.
  unfold director_of. destruct (Movie.id_director m) as [sid|]; [|done]. simpl.
  intros [? <-]%(first_by_key_Some Star.id). done.
Qed.

Lemma director_of_is_Some d m :
  has_director d m → ∃ st, director_of m d = Some st.
Proof.
  intros (st & Hst & Hk). unfold director_of. rewrite Hk. simpl.
  apply (first_by_key_is_Some Star.id). by apply list_elem_of_fmap_2.
Qed.

Lemma director_of_unique d m st :
  NoDup (Star.id <$> stars d) →
  st ∈ stars d → Movie.id_director m = Some (Star.id st) →
  director_of m d = Some st.
Proof.
  intros Hpk Hst Hk. destruct (director_of_is_Some d m) as [st' H']; [by exists st|].
  rewrite H'. f_equal. apply director_of_Some in H' as [Hst' Hk'].
  apply (key_inj Star.id (stars d)); [done..|congruence].
Qed.

(** Under the primary key a movie is in the de-duplicated result when
    one of the joined rows holds it. *)
Lemma elem_of_unique_joined d (rows : list (Movie.t * Star.t)) (m : Movie.t) :
  NoDup (Movie.id <$> movies d) →
  (∀ m' st, (m', st) ∈ rows → m' ∈ movies d) →
  m ∈ unique Movie.id (rows.*1) ↔ ∃ st, (m, st) ∈ rows.
Proof.
  intros Hpk Hrows. split.
  - intros ([m' st] & -> & Hin)%elem_of_unique%list_elem_of_fmap. eauto.
  - intros (st & Hin).
    assert (m ∈ rows.*1) as Hm by (apply list_elem_of_fmap; by exists (m, st)).
    apply (unique_covers Movie.id) in Hm as (y & Hy & Hk).
    assert (y = m) as ->; [|done].
    apply elem_of_unique, list_elem_of_fmap in Hy as Hy'.
    destruct Hy' as ([m' st'] & -> & Hin').
    apply (key_inj Movie.id (movies d)); eauto.
Qed.

(** ** Movies by the name of the director *)

Section DirectorName.
Variable collate : ascii → ascii → bool.
Variable escape : option ascii.

(** Whatever the text, [get_movies_by_director_name] returns rows of
    "movies" that have a director, each id once, ascending by year: a movie
    without director is never in the result. *)
Theorem director_name_results_have_director (s : Session) (director_name : string) :
  ∃ l, get_movies_by_director_name collate escape director_name s = (Returned l, s)
       ∧ (∀ m, m ∈ l → m ∈ movies (store s) ∧ has_director (store s) m)
       ∧ NoDup (Movie.id <$> l)
       ∧ StronglySorted year_asc l.
Proof.
  eexists. split; [reflexivity|]. split; [|split].
  - intros m ([m' st] & -> & Hin)%elem_of_unique%list_elem_of_fmap.
    rewrite merge_sort_Permutation in Hin.
    apply list_elem_of_filter in Hin as [_ Hin].
    apply elem_of_join_director in Hin as (? & ? & ?). split; [done|]. by exists st.
  - apply unique_from_NoDup.
  - apply unique_from_sorted.
    apply (StronglySorted_fmap fst joined_year_asc year_asc); [done|].
    apply StronglySorted_merge_sort; apply _.
Qed.

(** Under the primary keys the result is the movies whose director's name
    the pattern matches. *)
Lemma elem_of_director_name (s : Session) (director_name : string) (m : Movie.t) :
  primary_keys (store s) →
  ∀ l s', get_movies_by_director_name collate escape director_name s = (Returned l, s') →
  m ∈ l ↔ m ∈ movies (store s)
          ∧ ∃ st, director_of m (store s) = Some st
                  ∧ like collate escape (Star.name st)
                         ("%" ++ director_name ++ "%") = true.
Proof.
  intros [Hpkm Hpks] l s' H. injection H as <- _.
  rewrite (elem_of_unique_joined (store s)); [|done|].
  - setoid_rewrite merge_sort_Permutation.
    setoid_rewrite list_elem_of_filter. setoid_rewrite elem_of_join_director.
    simpl. split.
    + intros (st & Hc & Hm & Hst & Hk). split; [done|]. exists st.
      split; [by apply director_of_unique|done].
    + intros (Hm & st & Hd & Hc). apply director_of_Some in Hd as [? ?]. eauto 10.
  - intros m' st Hin. rewrite merge_sort_Permutation in Hin.
    apply list_elem_of_filter in Hin as [_ Hin].
    by apply elem_of_join_director in Hin as (? & _).
Qed.

(** For a text without LIKE's special characters and ids that are primary
    keys, the result is exactly the movies whose director's name holds the
    text. *)
Theorem director_name_plain_text (s : Session) (director_name : string) :
  plain escape director_name →
  primary_keys (store s) →
  ∃ l, get_movies_by_director_name collate escape director_name s = (Returned l, s)
       ∧ ∀ m, m ∈ l ↔ m ∈ movies (store s)
                      ∧ ∃ st, director_of m (store s) = Some st
                              ∧ contains collate (Star.name st) director_name.
Proof.
  intros Hp Hpk. eexists. split; [reflexivity|]. intros m.
  rewrite (elem_of_director_name s director_name m Hpk _ s eq_refl).
  by setoid_rewrite (like_substring collate escape _ _ Hp).
Qed.

(** With the empty text the result is the movies that have a director,
    not every movie. *)
Theorem director_name_empty_text (s : Session) :
  primary_keys (store s) →
  ∃ l, get_movies_by_director_name collate escape "" s = (Returned l, s)
       ∧ ∀ m, m ∈ l ↔ m ∈ movies (store s) ∧ has_director (store s) m.
Proof.
  intros Hpk. eexists. split; [reflexivity|]. intros m.
  rewrite (elem_of_director_name s "" m Hpk _ s eq_refl). split.
  - intros (Hm & st & Hd & _). split; [done|].
    apply director_of_Some in Hd as [? ?]. by exists st.
  - intros (Hm & Hd). split; [done|]. destruct (director_of_is_Some _ _ Hd) as [st Hst].
    exists st. split; [done|]. apply like_any.
Qed.

(** ** Directors by the title of the movie *)

(** Whatever the text, [get_director_by_movie_title] returns a list
    without None: every entry is a row of "stars". *)
Theorem directors_by_title_no_none (s : Session) (movie_title : string) :
  ∃ l, get_director_by_movie_title collate escape movie_title s = (Returned l, s)
       ∧ ∀ o, o ∈ l → ∃ st, o = Some st ∧ st ∈ stars (store s).
Proof.
  eexists. split; [reflexivity|]. simpl.
  intros o (m & -> & Hm)%list_elem_of_fmap.
  apply elem_of_unique, list_elem_of_fmap in Hm as ([m' st] & -> & Hin).
  apply list_elem_of_filter in Hin as [_ Hin].
  apply elem_of_join_director in Hin as (_ & Hst & Hk). simpl.
  destruct (director_of_is_Some (store s) m') as [st' H']; [by exists st|].
  exists st'. split; [done|]. by apply director_of_Some in H' as [? _].
Qed.

(** For a text without LIKE's special characters and ids that are primary
    keys, the list has one entry for every movie that has a director and
    whose title holds the text: the director of that movie. *)
Theorem directors_by_title_plain_text (s : Session) (movie_title : string) :
  plain escape movie_title →
  primary_keys (store s) →
  ∃ l ms, get_director_by_movie_title collate escape movie_title s = (Returned l, s)
          ∧ l = (λ m, director_of m (store s)) <$> ms
          ∧ NoDup (Movie.id <$> ms)
          ∧ ∀ m, m ∈ ms ↔ m ∈ movies (store s)
                          ∧ has_director (store s) m
                          ∧ contains collate (Movie.title m) movie_title.
Proof.
  intros Hp [Hpkm Hpks]. eexists. eexists. split; [reflexivity|].
  split; [reflexivity|]. split; [apply unique_from_NoDup|]. intros m.
  rewrite (elem_of_unique_joined (store s)); [|done|].
  - setoid_rewrite list_elem_of_filter. setoid_rewrite elem_of_join_director.
    simpl. setoid_rewrite (like_substring collate escape _ _ Hp).
    unfold has_director. naive_solver.
  - intros m' st Hin. apply list_elem_of_filter in Hin as [_ Hin].
    by apply elem_of_join_director in Hin as (? & _).
Qed.
End DirectorName.

(** ** Stars by the end of the name *)

Section StarEndname.
Variable collate : ascii → ascii → bool.
Variable escape : option ascii.

Lemma elem_of_stars_by_endname (s : Session) (name : string) (st : Star.t) :
  ∀ l s', get_stars_by_endname collate escape name s = (Returned l, s') →
  st ∈ l ↔ st ∈ stars (store s)
            ∧ like collate escape (Star.name st) ("%" ++ name) = true.
Proof.
  intros l s' H. injection H as <- _.
  rewrite merge_sort_Permutation. unfold _get_stars_by_predicate.
  rewrite list_elem_of_filter, Forall_singleton. tauto.
Qed.

(** For a text without LIKE's special characters, [get_stars_by_endname]
    returns exactly the stars whose name ends with the text, no row more
    often than the table has it, ascending by birthdate with the stars
    without birthdate first. *)
Theorem stars_by_endname_plain_text (s : Session) (name : string) :
  plain escape name →
  ∃ l, get_stars_by_endname collate escape name s = (Returned l, s)
       ∧ (∀ st, st ∈ l ↔ st ∈ stars (store s)
                         ∧ ends_with collate (Star.name st) name)
       ∧ l ⊆+ stars (store s)
       ∧ StronglySorted birthdate_asc l.
Proof.
  intros Hp. eexists. split; [reflexivity|]. split; [|split].
  - intros st. rewrite (elem_of_stars_by_endname s name st _ s eq_refl).
    by rewrite like_suffix.
  - rewrite merge_sort_Permutation. apply sublist_submseteq, sublist_filter.
  - apply StronglySorted_merge_sort; apply _.
Qed.

(** Whatever the text (wildcards included), the movies that
    [get_movies_by_actor_endname] returns are the movies in which one of
    the stars that [get_stars_by_endname] returns for the same text acts. *)
Theorem movies_by_actor_endname_via_stars (s : Session) (text : string) :
  NoDup (Movie.id <$> movies (store s)) →
  ∃ lm ls,
    get_movies_by_actor_endname collate escape text s = (Returned lm, s)
    ∧ get_stars_by_endname collate escape text s = (Returned ls, s)
    ∧ ∀ m, m ∈ lm ↔ m ∈ movies (store s)
                    ∧ ∃ st, st ∈ ls ∧ acts_in (store s) st (Movie.id m).
Proof.
  intros Hpk. eexists. eexists. split; [reflexivity|]. split; [reflexivity|].
  intros m. setoid_rewrite (elem_of_stars_by_endname s text _ _ s eq_refl).
  rewrite (elem_of_unique_joined (store s)); [|done|].
  - setoid_rewrite merge_sort_Permutation.
    setoid_rewrite list_elem_of_filter. setoid_rewrite elem_of_join_actors.
    simpl. unfold acts_in. naive_solver.
  - intros m' st Hin. rewrite merge_sort_Permutation in Hin.
    apply list_elem_of_filter in Hin as [_ Hin].
    by apply elem_of_join_actors in Hin as (? & _).
Qed.
End StarEndname.

Lemma stars_by_endname_plain_text_witness :
  plain backslash "Smith"
  ∧ ∃ l, get_stars_by_endname eqb_collation backslash "Smith" (fresh sample_db)
         = (Returned l, fresh sample_db)
         ∧ ∀ st, st ∈ l ↔ st ∈ stars sample_db
                          ∧ ends_with eqb_collation (Star.name st) "Smith".
Proof.
  assert (plain backslash "Smith") as Hp by (unfold plain; simpl; repeat constructor).
  split; [exact Hp|].
  destruct (stars_by_endname_plain_text eqb_collation backslash (fresh sample_db) "Smith" Hp)
    as (l & Hrun & Hl & _).
  exists l. split; [exact Hrun|exact Hl].
Defined.

Lemma movies_by_actor_endname_via_stars_witness :
  ∃ lm ls,
    get_movies_by_actor_endname eqb_collation backslash "_" (fresh sample_db)
    = (Returned lm, fresh sample_db)
    ∧ get_stars_by_endname eqb_collation backslash "_" (fresh sample_db)
      = (Returned ls, fresh sample_db)
    ∧ ∀ m, m ∈ lm ↔ m ∈ movies sample_db
                    ∧ ∃ st, st ∈ ls ∧ acts_in sample_db st (Movie.id m).
Proof.
  apply (movies_by_actor_endname_via_stars eqb_collation backslash (fresh sample_db) "_").
  apply (bool_decide_unpack _). vm_compute. reflexivity.
Defined.

Lemma title_plain_text_substring_witness :
  plain backslash "Ali"
  ∧ ∃ l, get_movies_by_title eqb_collation backslash "Ali" (fresh sample_db)
         = (Returned l, fresh sample_db)
         ∧ ∀ m, m ∈ l ↔ m ∈ movies sample_db
                        ∧ contains eqb_collation (Movie.title m) "Ali".
Proof.
  assert (plain backslash "Ali") as Hp by (unfold plain; simpl; repeat constructor).
  split; [exact Hp|].
  destruct (title_plain_text_substring eqb_collation backslash (fresh sample_db) "Ali" Hp)
    as (l & Hrun & Hl & _).
  exists l. split; [exact Hrun|exact Hl].
Defined.

Lemma director_name_plain_text_witness :
  plain backslash "Mann"
  ∧ primary_keys sample_db
  ∧ ∃ l, get_movies_by_director_name eqb_collation backslash "Mann" (fresh sample_db)
         = (Returned l, fresh sample_db)
         ∧ ∀ m, m ∈ l ↔ m ∈ movies sample_db
                        ∧ ∃ st, director_of m sample_db = Some st
                                ∧ contains eqb_collation (Star.name st) "Mann".
Proof.
  assert (plain backslash "Mann") as Hp by (unfold plain; simpl; repeat constructor).
  assert (primary_keys sample_db) as Hk
    by (apply (bool_decide_unpack _); vm_compute; reflexivity).
  split; [exact Hp|]. split; [exact Hk|].
  exact (director_name_plain_text eqb_collation backslash (fresh sample_db) "Mann" Hp Hk).
Defined.

Lemma director_name_empty_text_witness :
  primary_keys sample_db
  ∧ ∃ l, get_movies_by_director_name eqb_collation backslash "" (fresh sample_db)
         = (Returned l, fresh sample_db)
         ∧ ∀ m, m ∈ l ↔ m ∈ movies sample_db ∧ has_director sample_db m.
Proof.
  assert (primary_keys sample_db) as Hk
    by (apply (bool_decide_unpack _); vm_compute; reflexivity).
  split; [exact Hk|].
  exact (director_name_empty_text eqb_collation backslash (fresh sample_db) Hk).
Defined.

Lemma directors_by_title_plain_text_witness :
  plain backslash "Ali"
  ∧ primary_keys sample_db
  ∧ ∃ l ms, get_director_by_movie_title eqb_collation backslash "Ali" (fresh sample_db)
            = (Returned l, fresh sample_db)
            ∧ l = (λ m, director_of m sample_db) <$> ms
            ∧ NoDup (Movie.id <$> ms)
            ∧ ∀ m, m ∈ ms ↔ m ∈ movies sample_db
                            ∧ has_director sample_db m
                            ∧ contains eqb_collation (Movie.title m) "Ali".
Proof.
  assert (plain backslash "Ali") as Hp by (unfold plain; simpl; repeat constructor).
  assert (primary_keys sample_db) as Hk
    by (apply (bool_decide_unpack _); vm_compute; reflexivity).
  split; [exact Hp|]. split; [exact Hk|].
  exact (directors_by_title_plain_text eqb_collation backslash (fresh sample_db) "Ali" Hp Hk).
Defined.

(** ** The director of a movie, every case *)

(** [get_director_by_id_movie] never returns None: it returns the star a
    movie of that id points to, or, when no movie of that id has a director
    row, it raises AttributeError.  The session is as it was. *)
Theorem director_by_id_star_or_raise (s : Session) (movie_id : Z) :
  (∃ m st, get_director_by_id_movie movie_id s = (Returned (Some st), s)
           ∧ m ∈ movies (store s) ∧ Movie.id m = movie_id
           ∧ st ∈ stars (store s) ∧ Movie.id_director m = Some (Star.id st))
  ∨ (get_director_by_id_movie movie_id s = (Raised AttributeError, s)
     ∧ ∀ m st, m ∈ movies (store s) → st ∈ stars (store s) →
               Movie.id m = movie_id → Movie.id_director m ≠ Some (Star.id st)).
Proof.
  unfold get_director_by_id_movie. run_session.
  destruct (head _) as [m|] eqn:E.
  - left. apply head_Some_elem_of, list_elem_of_fmap in E as ([m' st0] & -> & H).
    apply list_elem_of_filter in H as [Hid H]. simpl in *.
    apply elem_of_join_director in H as (Hm & Hst0 & Hk).
    destruct (director_of_is_Some (store s) m') as [st Hst]; [by exists st0|].
    exists m', st. rewrite Hst. split; [done|].
    apply director_of_Some in Hst as [? ?]. done.
  - right. split; [done|]. intros m st Hm Hst Hid Hk.
    apply head_None, fmap_nil_inv in E.
    eapply (filter_nil_not_elem_of _ _ (m, st) E); [done|].
    by apply elem_of_join_director.
Qed.

(** ** Setting the director and reading it back *)

Lemma update_movie_director_run d movie_id director_id m st :
  movie_by_id movie_id d = Some m →
  star_by_id director_id d = Some st →
  run (update_movie_director movie_id director_id) d
  = (Returned (inr (Movie.set_id_director (Some director_id) m)),
     fresh (apply_change d (UpdateMovie (Movie.set_id_director (Some director_id) m)))).
Proof.
  intros Hm Hs. destruct (star_by_id_Some _ _ _ Hs) as [_ Hsid].
  unfold update_movie_director. run_session. rewrite Hm. simpl.
  rewrite Hs. simpl. by rewrite Hsid.
Qed.

Lemma update_movie_rows d m' m :
  m ∈ movies (apply_change d (UpdateMovie m')) → Movie.id m = Movie.id m' → m = m'.
Proof.
  unfold apply_change. simpl. intros (r & -> & Hr)%list_elem_of_fmap.
  destruct (decide _); [done|]. intros ?. done.
Qed.

(** After [update_movie_director] has set the director of an existing
    movie to an existing star, [get_director_by_id_movie] returns that
    star. *)
Theorem set_director_then_read (d : DB) (movie_id director_id : Z) :
  movie_exists movie_id d → star_exists director_id d →
  ∃ st d',
    star_by_id director_id d = Some st
    ∧ (run (update_movie_director movie_id director_id) d).2 = fresh d'
    ∧ run (get_director_by_id_movie movie_id) d' = (Returned (Some st), fresh d').
Proof.
  intros [m Hm]%movie_by_id_is_Some [st Hs]%star_by_id_is_Some.
  destruct (movie_by_id_Some _ _ _ Hm) as [Hin Hid].
  destruct (star_by_id_Some _ _ _ Hs) as [Hst Hsid].
  set (m' := Movie.set_id_director (Some director_id) m).
  set (d' := apply_change d (UpdateMovie m')).
  exists st, d'. split; [done|]. split.
  { by rewrite (update_movie_director_run d movie_id director_id m st). }
  assert (m' ∈ movies d') as Hm'.
  { apply (movie_by_id_Some (Movie.id m')), update_movie_lookup.
    change (Movie.id m') with (Movie.id m). rewrite Hid.
    apply list_elem_of_fmap. by exists m. }
  unfold get_director_by_id_movie. run_session.
  assert (head ((filter (λ ms : Movie.t * Star.t, Movie.id ms.1 = movie_id)
                        (join_director d')).*1) = Some m') as ->.
  { destruct (head _) as [x|] eqn:E.
    - f_equal. apply head_Some_elem_of, list_elem_of_fmap in E as ([x' st'] & -> & H).
      apply list_elem_of_filter in H as [Hx H]. simpl in *.
      apply elem_of_join_director in H as (Hx' & _).
      apply (update_movie_rows d); [done|]. by rewrite Hx.
    - apply head_None, fmap_nil_inv in E.
      destruct (filter_nil_not_elem_of _ _ (m', st) E); [done|].
      apply elem_of_join_director. split; [done|]. split; [done|].
      simpl. by rewrite Hsid. }
  simpl. fold (star_by_id director_id d'). by rewrite <- Hs.
Qed.

Lemma set_director_then_read_witness :
  ∃ st d',
    star_by_id 11 sample_db = Some st
    ∧ (run (update_movie_director 2 11) sample_db).2 = fresh d'
    ∧ run (get_director_by_id_movie 2) d' = (Returned (Some st), fresh d').
Proof.
  apply (set_director_then_read sample_db 2 11).
  - apply (bool_decide_unpack _). vm_compute. reflexivity.
  - apply (bool_decide_unpack _). vm_compute. reflexivity.
Defined.

(** ** What no mutation touches *)

Arguments flush : simpl never.

Lemma flush_frame d cs :
  Movie.id <$> movies (flush d cs) = Movie.id <$> movies d
  ∧ stars (flush d cs) = stars d.
Proof.
  revert d. induction cs as [|c cs IH]; intros d; [done|].
  change (flush d (c :: cs)) with (flush (apply_change d c) cs).
  destruct (IH (apply_change d c)) as [-> ->].
  destruct c; [|done..]. split; [apply update_movie_ids|done].
Qed.

Lemma flushed_keeps_entities d cs : keeps_entities d (mkSession (flush d cs) []).
Proof.
  destruct (flush_frame d cs) as [Hm Hs]. split; [done|]. split; [done|].
  split; [done|]. intros [? ?]. split; simpl; [by rewrite Hm|by rewrite Hs].
Qed.

Lemma unchanged_keeps_entities d : keeps_entities d (fresh d).
Proof. apply (flushed_keeps_entities d []). Qed.

(** Whatever their arguments, [update_movie], [update_movie_director],
    [add_movie_actor] and [update_movie_actors] end with an empty unit of
    work and leave the ids of the movies and the whole table "stars" as
    they were: none of them creates or deletes a movie or a star, and the
    primary keys stay primary keys. *)
Theorem mutations_keep_entities (d : DB) (movie : schemas.Movie)
    (movie_id star_id : Z) (star_ids : list Z) :
  keeps_entities d (run (update_movie movie) d).2
  ∧ keeps_entities d (run (update_movie_director movie_id star_id) d).2
  ∧ keeps_entities d (run (add_movie_actor movie_id star_id) d).2
  ∧ keeps_entities d (run (update_movie_actors movie_id star_ids) d).2.
Proof.
  split; [|split; [|split]].
  - unfold update_movie. run_session.
    destruct (movie_by_id _ d); [apply flushed_keeps_entities|apply unchanged_keeps_entities].
  - unfold update_movie_director. run_session.
    destruct (movie_by_id _ d); simpl; [|apply unchanged_keeps_entities].
    destruct (star_by_id _ d); simpl;
      [apply flushed_keeps_entities|apply unchanged_keeps_entities].
  - unfold add_movie_actor, append_actor. run_session.
    destruct (movie_by_id _ d) as [m|]; simpl; [|apply unchanged_keeps_entities].
    destruct (star_by_id _ d) as [st|]; simpl; [|apply unchanged_keeps_entities].
    destruct (decide _); simpl.
    + destruct (movie_by_id _ _); simpl; apply (flushed_keeps_entities d []).
    + destruct (movie_by_id _ _); simpl; apply flushed_keeps_entities.
  - unfold update_movie_actors, set_actors. run_session.
    destruct (movie_by_id _ d) as [m|]; simpl; [|apply unchanged_keeps_entities].
    destruct (stale _ _); simpl; [apply unchanged_keeps_entities|].
    destruct (movie_by_id _ _); simpl; apply flushed_keeps_entities.
Qed.

(** ** Replacing the actors twice *)

Lemma filter_none {A} (P : A → Prop) `{∀ x, Decision (P x)} (l : list A) :
  (∀ x, x ∈ l → ¬ P x) → filter P l = [].
Proof.
  induction l as [|a l IH]; intros Hno; [done|].
  rewrite filter_cons_False by (apply Hno; left). apply IH.
  intros x Hx. apply Hno. by right.
Qed.

(** Once the actors are replaced, replacing them by the same stars
    registers no change. *)
Lemma actor_changes_replaced d movie_id (star_ids : list Z) :
  actor_changes
    (actors_replaced d movie_id (filter (λ s, Star.id s ∈ star_ids) (stars d)))
    movie_id (filter (λ s, Star.id s ∈ star_ids) (stars d)) = [].
Proof.
  set (new := filter (λ s, Star.id s ∈ star_ids) (stars d)).
  set (d' := actors_replaced d movie_id new).
  assert (∀ s, acts_in d' s movie_id ↔ s ∈ new) as Hacts.
  { intros s. apply actors_replaced_acts_in.
    - intros x Hx. by apply list_elem_of_filter in Hx as [_ ?].
    - intros x y Hx Hy Hk. apply list_elem_of_filter in Hx as [Hx _].
      apply list_elem_of_filter. by rewrite Hk. }
  unfold actor_changes. rewrite !filter_none; [done| |].
  - intros s Hs Hout. apply Hout, actors_of_ids. exists s. split; [|done].
    by apply Hacts.
  - intros s Hs Hout. apply Hout, list_elem_of_fmap_2, Hacts.
    by apply actors_of_acts_in.
Qed.

(** [update_movie_actors] is idempotent: when a run has returned a movie,
    a second run with the same list on the store it produced returns the
    same movie and changes nothing. *)
Theorem update_movie_actors_twice (d d' : DB) (movie_id : Z) (star_ids : list Z)
    (m : Movie.t) :
  run (update_movie_actors movie_id star_ids) d = (Returned (Some m), fresh d') →
  run (update_movie_actors movie_id star_ids) d' = (Returned (Some m), fresh d').
Proof.
  intros Hrun.
  set (new := filter (λ s, Star.id s ∈ star_ids) (stars d)) in *.
  destruct (movie_by_id movie_id d) as [m0|] eqn:Hm.
  - destruct (stale d (actor_changes d movie_id new)) eqn:Hstale.
    + rewrite (update_movie_actors_stale d movie_id star_ids m0 Hm Hstale) in Hrun.
      discriminate.
    + rewrite (update_movie_actors_run d movie_id star_ids m0 Hm Hstale) in Hrun.
      injection Hrun as -> <-. fold new.
      destruct (actors_replaced_spec d movie_id new) as (Hmovies & Hstars & _).
      assert (movie_by_id movie_id (actors_replaced d movie_id new) = Some m) as Hm'.
      { unfold movie_by_id in *. by rewrite Hmovies. }
      assert (actor_changes (actors_replaced d movie_id new) movie_id
                (filter (λ s, Star.id s ∈ star_ids)
                        (stars (actors_replaced d movie_id new))) = []) as Hnil.
      { rewrite Hstars. apply actor_changes_replaced. }
      rewrite (update_movie_actors_run _ movie_id star_ids m Hm');
        [|by rewrite Hnil].
      set (D := actors_replaced d movie_id new) in *.
      change (actors_replaced D movie_id
                (filter (λ s, Star.id s ∈ star_ids) (stars D)))
        with (flush D (actor_changes D movie_id
                         (filter (λ s, Star.id s ∈ star_ids) (stars D)))).
      by rewrite Hnil.
  - apply movie_by_id_None in Hm.
    assert (run (update_movie_actors movie_id star_ids) d = (Returned None, fresh d))
      as Hnone.
    { apply movie_by_id_None in Hm. unfold update_movie_actors. run_session.
      by rewrite Hm. }
    rewrite Hnone in Hrun. discriminate.
Qed.

Lemma update_movie_actors_twice_witness :
  ∃ m d',
    run (update_movie_actors 3 [12; 13; 99]) sample_db = (Returned (Some m), fresh d')
    ∧ run (update_movie_actors 3 [12; 13; 99]) d' = (Returned (Some m), fresh d').
Proof.
  eexists. eexists. split; [vm_compute; reflexivity|].
  apply (update_movie_actors_twice sample_db _ 3 [12; 13; 99]).
  vm_compute. reflexivity.
Defined.

(** ** Adding one actor *)

(** When the movie and the star exist and the star is not yet an actor of
    the movie, [add_movie_actor] commits and returns the movie; afterwards
    the star acts in the movie, and nothing else about who acts in what
    has changed.  (What the ORM does when a star already in the collection
    is appended again is not stated here.) *)
Theorem add_movie_actor_adds (d : DB) (movie_id star_id : Z) :
  movie_exists movie_id d → star_exists star_id d →
  star_id ∉ Star.id <$> actors_of movie_id d →
  ∃ m d',
    movie_by_id movie_id d = Some m
    ∧ run (add_movie_actor movie_id star_id) d = (Returned (inr m), fresh d')
    ∧ movies d' = movies d ∧ stars d' = stars d
    ∧ ∀ st i, acts_in d' st i
              ↔ acts_in d st i ∨ (i = movie_id ∧ st ∈ stars d ∧ Star.id st = star_id).
Proof.
  intros [m Hm]%movie_by_id_is_Some [st0 Hs]%star_by_id_is_Some Hnew.
  destruct (movie_by_id_Some _ _ _ Hm) as [_ Hid].
  destruct (star_by_id_Some _ _ _ Hs) as [_ Hsid].
  exists m, (apply_change d (InsertPlay movie_id star_id)).
  split; [done|]. split; [|split; [done|split; [done|]]].
  - unfold add_movie_actor, append_actor. run_session. rewrite Hm. simpl.
    rewrite Hs. simpl. rewrite Hid, Hsid.
    rewrite decide_False by done. simpl.
    change (flush d [InsertPlay movie_id star_id])
      with (apply_change d (InsertPlay movie_id star_id)).
    assert (movie_by_id movie_id (apply_change d (InsertPlay movie_id star_id)) = Some m)
      as -> by done.
    done.
  - intros st i. unfold acts_in, apply_change. simpl.
    setoid_rewrite elem_of_app. setoid_rewrite list_elem_of_singleton. split.
    + intros (Hst & p & [Hp| ->] & Hi & Ha); [left; eauto 10|].
      right. simpl in *. injection Hi as ->. injection Ha as ->. done.
    + intros [(Hst & p & Hp & Hi & Ha)|(-> & Hst & <-)]; [eauto 10|].
      split; [done|]. exists (Play.Row (Some movie_id) (Some (Star.id st)) None). auto.
Qed.

Lemma add_movie_actor_adds_witness :
  ∃ m d',
    movie_by_id 2 sample_db = Some m
    ∧ run (add_movie_actor 2 14) sample_db = (Returned (inr m), fresh d')
    ∧ movies d' = movies sample_db ∧ stars d' = stars sample_db
    ∧ ∀ st i, acts_in d' st i
              ↔ acts_in sample_db st i
                ∨ (i = 2 ∧ st ∈ stars sample_db ∧ Star.id st = 14).
Proof.
  apply (add_movie_actor_adds sample_db 2 14).
  - apply (bool_decide_unpack _). vm_compute. reflexivity.
  - apply (bool_decide_unpack _). vm_compute. reflexivity.
  - apply (bool_decide_unpack _). vm_compute. reflexivity.
Defined.

(** ** The counts of the years add up *)

Lemma total_cons x ds : total (x :: ds) = x + total ds.
Proof. done. Qed.

#[global] Instance total_perm : Proper ((≡ₚ) ==> (=)) total.
Proof.
  intros l1 l2 Hp. induction Hp as [|x l1 l2 _ IH|x y l|l1 l2 l3 _ IH1 _ IH2].
  - done.
  - by rewrite !total_cons, IH.
  - rewrite !total_cons. lia.
  - congruence.
Qed.

Lemma agg_count_next a dur : agg_count (agg_next a dur) = agg_count a + 1.
Proof. by destruct dur. Qed.

Lemma agg_count_first dur : agg_count (agg_first dur) = 1.
Proof. by destruct dur. Qed.

Lemma group_row_counts (g : gmap Z agg) (m : Movie.t) :
  total ((λ ya : Z * agg, agg_count ya.2) <$> map_to_list (group_row g m))
  = total ((λ ya : Z * agg, agg_count ya.2) <$> map_to_list g) + 1.
Proof.
  unfold group_row. destruct (g !! Movie.year m) as [a|] eqn:E.
  - rewrite <- (map_to_list_delete g _ _ E).
    rewrite <- insert_delete_eq.
    rewrite map_to_list_insert by apply lookup_delete_eq.
    rewrite !fmap_cons, !total_cons. simpl. rewrite agg_count_next. lia.
  - rewrite map_to_list_insert by done.
    rewrite fmap_cons, total_cons. simpl. rewrite agg_count_first. lia.
Qed.

Lemma foldl_group_row_counts (rows : list Movie.t) (g : gmap Z agg) :
  total ((λ ya : Z * agg, agg_count ya.2) <$> map_to_list (foldl group_row g rows))
  = total ((λ ya : Z * agg, agg_count ya.2) <$> map_to_list g)
    + Z.of_nat (length rows).
Proof.
  revert g. induction rows as [|m rows IH]; intros g; simpl; [lia|].
  rewrite IH, group_row_counts. lia.
Qed.

(** The movie counts of the records that [get_count_movies_by_year]
    returns add up to the number of movies: every movie is counted in one
    record, whether it has a duration or not. *)
Theorem count_by_year_counts_every_movie (sql_number : Q → Q) (s : Session) :
  ∃ r, get_count_movies_by_year sql_number s = (Returned r, s)
       ∧ total (movie_count <$> r) = Z.of_nat (length (movies (store s))).
Proof.
  eexists. split; [reflexivity|].
  rewrite <- list_fmap_compose.
  change (movie_count ∘ _) with (λ ya : Z * agg, agg_count ya.2).
  rewrite merge_sort_Permutation.
  unfold group_by_year. rewrite foldl_group_row_counts.
  by rewrite map_to_list_empty.
Qed.

(** ** Grouping joined rows by star *)

Lemma members_tally k st m g :
  members k (tally st m g)
  = if decide (k = st) then members st g ++ [m] else members k g.
Proof.
  induction g as [|[k' ms] g IH]; simpl.
  - destruct (decide (st = k)), (decide (k = st)); congruence.
  - destruct (decide (k' = st)) as [->|Hne]; simpl.
    + destruct (decide (st = k)) as [->|]; [by rewrite decide_True|].
      by rewrite decide_False by congruence.
    + destruct (decide (k' = k)) as [->|]; [by rewrite decide_False|done].
Qed.

Lemma keys_tally st m g :
  (tally st m g).*1 = g.*1 ++ (if decide (st ∈ g.*1) then [] else [st]).
Proof.
  induction g as [|[k ms] g IH]; csimpl; [done|].
  destruct (decide (k = st)) as [->|Hne]; csimpl.
  - rewrite decide_True by left. by rewrite app_nil_r.
  - rewrite IH. f_equal. destruct (decide (st ∈ g.*1)) as [Hin|Hnin].
    + by rewrite decide_True by (by right).
    + rewrite decide_False; [done|]. intros [?|?]%elem_of_cons; congruence.
Qed.

Lemma members_of_group g k ms :
  NoDup (g.*1) → (k, ms) ∈ g → members k g = ms.
Proof.
  induction g as [|[k' ms'] g IH]; intros Hnd Hin; [by apply elem_of_nil in Hin|].
  csimpl in *. apply NoDup_cons in Hnd as [Hk' Hnd].
  apply elem_of_cons in Hin as [[= -> ->]|Hin]; [by rewrite decide_True|].
  rewrite decide_False; [by apply IH|]. intros ->. apply Hk'.
  apply list_elem_of_fmap. by exists (k, ms).
Qed.

Lemma group_of_member g k :
  k ∈ g.*1 → (k, members k g) ∈ g.
Proof.
  induction g as [|[k' ms'] g IH]; intros Hin; [by apply elem_of_nil in Hin|].
  csimpl in *. destruct (decide (k' = k)) as [->|Hne]; [left|].
  right. apply IH. apply elem_of_cons in Hin as [?|?]; [congruence|done].
Qed.

(** The grouping of the rows [rows]: every star of a row has one group,
    and its group is the movies of its rows, in the order of the rows. *)
Lemma group_by_star_spec (rows : list (Movie.t * Star.t)) :
  NoDup ((group_by_star rows).*1)
  ∧ (∀ k, k ∈ (group_by_star rows).*1 ↔ k ∈ rows.*2)
  ∧ ∀ k, members k (group_by_star rows) = (filter (λ r, r.2 = k) rows).*1.
Proof.
  unfold group_by_star.
  assert (∀ done g,
    NoDup (g.*1) ∧ (∀ k, k ∈ g.*1 ↔ k ∈ done.*2)
    ∧ (∀ k, members k g = (filter (λ r, r.2 = k) done).*1) →
    NoDup ((foldl (λ g ms, tally ms.2 ms.1 g) g rows).*1)
    ∧ (∀ k, k ∈ (foldl (λ g ms, tally ms.2 ms.1 g) g rows).*1 ↔ k ∈ (done ++ rows).*2)
    ∧ (∀ k, members k (foldl (λ g ms, tally ms.2 ms.1 g) g rows)
            = (filter (λ r, r.2 = k) (done ++ rows)).*1)) as Hgen.
  { induction rows as [|[m st] rows IH]; intros done g (Hnd & Hkeys & Hmem); simpl.
    - by rewrite app_nil_r.
    - rewrite cons_middle, app_assoc. apply IH. split; [|split].
      + rewrite keys_tally. destruct (decide _); [by rewrite app_nil_r|].
        apply NoDup_app. split; [done|]. split; [|apply NoDup_singleton].
        intros x Hx ->%list_elem_of_singleton. done.
      + intros k. rewrite keys_tally, fmap_app, !elem_of_app, Hkeys. simpl.
        rewrite list_elem_of_singleton. destruct (decide (st ∈ g.*1)) as [Hin|Hnin].
        * split; [intros [?|[]%elem_of_nil]; by left|].
          intros [?| ->]; [by left|]. left. by apply Hkeys.
        * by rewrite list_elem_of_singleton.
      + intros k. rewrite members_tally, filter_app, fmap_app, <- !Hmem.
        destruct (decide (k = st)) as [->|Hne].
        * by rewrite filter_cons_True.
        * rewrite filter_cons_False by (simpl; congruence). by rewrite app_nil_r. }
  apply (Hgen [] []). split; [constructor|]. split; [|done].
  intros k. split; intros []%elem_of_nil.
Qed.

Lemma rows_of_star_inner (C : Star.t → Prop) `{∀ s, Decision (C s)}
    (m : Movie.t) (ss : list Star.t) (st : Star.t) :
  NoDup ss →
  (filter (λ r : Movie.t * Star.t, r.2 = st)
     (ss ≫= λ s, if decide (C s) then [(m, s)] else [])).*1
  = if decide (st ∈ ss ∧ C st) then [m] else [].
Proof.
  induction ss as [|a ss IH]; intros Hss.
  - destruct (decide _) as [[Hin _]|]; [by apply elem_of_nil in Hin|done].
  - apply NoDup_cons in Hss as [Ha Hss].
    rewrite bind_cons, filter_app, fmap_app, IH by done.
    destruct (decide (a = st)) as [->|Hne].
    + destruct (decide (st ∈ ss ∧ _)) as [[? _]|_]; [done|]. rewrite app_nil_r.
      destruct (decide (C st)) as [Hk|Hk].
      * rewrite filter_cons_True by done.
        destruct (decide _) as [|Hno]; [done|]. destruct Hno. split; [left|done].
      * destruct (decide _) as [[_ ?]|]; done.
    + assert (filter (λ r : Movie.t * Star.t, r.2 = st)
                (if decide (C a) then [(m, a)] else []) = []) as ->.
      { destruct (decide (C a)); [|done]. by rewrite filter_cons_False. }
      csimpl. destruct (decide (st ∈ ss ∧ _)) as [[? ?]|Hno].
      * destruct (decide _) as [|Hno]; [done|]. destruct Hno. split; [by right|done].
      * destruct (decide _) as [[[?|?]%elem_of_cons ?]|]; [congruence|tauto|done].
Qed.

(** With every star once in the table, the rows of a star in the join on
    the director are the movies it directs. *)
Lemma join_director_rows_of d st :
  NoDup (stars d) →
  (filter (λ r, r.2 = st) (join_director d)).*1
  = if decide (st ∈ stars d) then directed_by d st else [].
Proof.
  intros Hnd. unfold join_director, directed_by.
  induction (movies d) as [|m l IH]; [by destruct (decide _)|].
  rewrite bind_cons, filter_app, fmap_app, IH.
  rewrite (rows_of_star_inner (λ s, Movie.id_director m = Some (Star.id s))) by done.
  destruct (decide (st ∈ stars d)) as [Hin|Hnin].
  - destruct (decide (Movie.id_director m = Some (Star.id st))) as [Hk|Hk].
    + rewrite filter_cons_True by done.
      destruct (decide _) as [|Hno]; [done|]. by destruct Hno.
    + rewrite filter_cons_False by done.
      destruct (decide _) as [[_ ?]|]; done.
  - destruct (decide _) as [[? _]|]; done.
Qed.


(** ** Statistics by director *)

#[global] Instance count_desc_total : Total count_desc.
Proof. intros a b. unfold count_desc. lia. Qed.
#[global] Instance count_desc_trans : Transitive count_desc.
Proof. intros a b c. unfold count_desc. lia. Qed.
#[global] Instance actor_count_desc_total : Total actor_count_desc.
Proof. intros a b. unfold actor_count_desc. lia. Qed.
#[global] Instance actor_count_desc_trans : Transitive actor_count_desc.
Proof. intros a b c. unfold actor_count_desc. lia. Qed.

(** With every star once in the table, [get_stats_movie_by_director]
    returns one row for every star that directs at least one movie and at
    least [min_count] movies, with the number of movies it directs,
    descending by that number.  A star that directs no movie is never in
    the result, whatever [min_count] is. *)
Theorem stats_by_director_counts (s : Session) (min_count : Z) :
  NoDup (stars (store s)) →
  ∃ l, get_stats_movie_by_director min_count s = (Returned l, s)
       ∧ (∀ st n, (st, n) ∈ l
                  ↔ st ∈ stars (store s)
                    ∧ n = Z.of_nat (length (directed_by (store s) st))
                    ∧ 1 ≤ n ∧ min_count ≤ n)
       ∧ NoDup (l.*1)
       ∧ StronglySorted count_desc l.
Proof.
  intros Hnd. set (d := store s). eexists. split; [reflexivity|]. fold d.
  destruct (group_by_star_spec (join_director d)) as (Hg & Hkeys & Hmem).
  set (g := group_by_star (join_director d)) in *.
  assert (∀ st, st ∈ g.*1 ↔ st ∈ stars d ∧ directed_by d st ≠ []) as Hkeys'.
  { intros st. rewrite Hkeys, list_elem_of_fmap. split.
    - intros ([m st'] & -> & Hin). apply elem_of_join_director in Hin as (Hm & Hst & Hk).
      split; [done|]. intros Hnil.
      eapply (filter_nil_not_elem_of _ _ m Hnil); done.
    - intros [Hst Hne]. destruct (directed_by d st) as [|m l] eqn:E; [done|].
      assert (m ∈ directed_by d st) as Hm by (rewrite E; left).
      apply list_elem_of_filter in Hm as [Hk Hm]. exists (m, st). split; [done|].
      by apply elem_of_join_director. }
  assert (∀ st ms, (st, ms) ∈ g ↔ st ∈ stars d ∧ ms = directed_by d st ∧ ms ≠ [])
    as Hgroups.
  { intros st ms. split.
    - intros Hin.
      assert (st ∈ g.*1) as Hk by (apply list_elem_of_fmap; by exists (st, ms)).
      apply Hkeys' in Hk as [Hst Hne]. split; [done|].
      apply members_of_group in Hin; [|done]. rewrite Hmem in Hin.
      rewrite join_director_rows_of, decide_True in Hin by done. by subst ms.
    - intros (Hst & -> & Hne).
      assert (st ∈ g.*1) as Hk by (by apply Hkeys').
      apply group_of_member in Hk. rewrite Hmem in Hk.
      by rewrite join_director_rows_of, decide_True in Hk. }
  split; [|split].
  - intros st n. rewrite merge_sort_Permutation, list_elem_of_filter, list_elem_of_fmap.
    simpl. split.
    + intros (Hmin & [st0 ms] & [= -> ->] & Hin). simpl in *.
      apply Hgroups in Hin as (Hst & -> & Hne). split; [done|]. split; [done|].
      split; [|done]. destruct (directed_by d st0); [done|]. simpl. lia.
    + intros (Hst & -> & Hone & Hmin). split; [done|].
      exists (st, directed_by d st). split; [done|]. apply Hgroups.
      split; [done|]. split; [done|]. intros Hnil. rewrite Hnil in Hone. simpl in Hone. lia.
  - rewrite merge_sort_Permutation. apply NoDup_keys_filter.
    rewrite <- list_fmap_compose. done.
  - apply StronglySorted_merge_sort; apply _.
Qed.

Lemma stats_by_director_counts_witness :
  ∃ l, get_stats_movie_by_director 2 (fresh sample_db) = (Returned l, fresh sample_db)
       ∧ ∀ st n, (st, n) ∈ l
                 ↔ st ∈ stars sample_db
                   ∧ n = Z.of_nat (length (directed_by sample_db st))
                   ∧ 1 ≤ n ∧ 2 ≤ n.
Proof.
  assert (NoDup (stars sample_db)) as Hnd
    by (apply (bool_decide_unpack _); vm_compute; reflexivity).
  destruct (stats_by_director_counts (fresh sample_db) 2 Hnd) as (l & Hrun & Hl & _).
  exists l. split; [exact Hrun|exact Hl].
Defined.

(** ** Statistics by actor *)

Lemma rows_of_star_play d (m : Movie.t) (ps : list Play.t) (st : Star.t) :
  NoDup (stars d) →
  (filter (λ r : Movie.t * Star.t, r.2 = st)
     (ps ≫= λ p, stars d ≫= λ s,
        if decide (Play.id_movie p = Some (Movie.id m)
                   ∧ Play.id_actor p = Some (Star.id s))
        then [(m, s)] else [])).*1
  = if decide (st ∈ stars d)
    then ps ≫= λ p,
           if decide (Play.id_movie p = Some (Movie.id m)
                      ∧ Play.id_actor p = Some (Star.id st))
           then [m] else []
    else [].
Proof.
  intros Hnd. induction ps as [|p ps IHp]; [by destruct (decide _)|].
  rewrite !bind_cons, filter_app, fmap_app, IHp.
  rewrite (rows_of_star_inner
             (λ s, Play.id_movie p = Some (Movie.id m)
                   ∧ Play.id_actor p = Some (Star.id s))) by done.
  destruct (decide (st ∈ stars d)) as [Hin|Hnin].
  - f_equal. destruct (decide (Play.id_movie p = _ ∧ _)) as [Hc|Hc].
    + destruct (decide _) as [|Hno]; [done|]. by destruct Hno.
    + destruct (decide _) as [[_ ?]|]; done.
  - destruct (decide _) as [[? _]|]; done.
Qed.

(** With every star once in the table, the rows of a star in the join on
    the actors are its join rows of "play", movie by movie. *)
Lemma join_actors_rows_of d st :
  NoDup (stars d) →
  (filter (λ r, r.2 = st) (join_actors d)).*1
  = if decide (st ∈ stars d) then played_in d st else [].
Proof.
  intros Hnd. unfold join_actors, played_in.
  induction (movies d) as [|m l IH]; [by destruct (decide _)|].
  rewrite !bind_cons, filter_app, fmap_app, IH, rows_of_star_play by done.
  by destruct (decide (st ∈ stars d)).
Qed.

Lemma foldl_min_spec (x : Z) (l : list Z) :
  foldl Z.min x l ∈ x :: l ∧ ∀ y, y ∈ x :: l → foldl Z.min x l ≤ y.
Proof.
  revert x. induction l as [|a l IH]; intros x; simpl.
  - split; [left|]. intros y ->%list_elem_of_singleton. lia.
  - destruct (IH (Z.min x a)) as [Hin Hle]. split.
    + apply elem_of_cons in Hin as [Heq|Hin]; [|by do 2 right].
      rewrite Heq. destruct (Z.min_spec x a) as [[_ ->]|[_ ->]]; [left|right; left].
    + intros y Hy. assert (foldl Z.min (Z.min x a) l ≤ Z.min x a) as H0 by (apply Hle; left).
      apply elem_of_cons in Hy as [->|[->|Hy]%elem_of_cons]; [lia|lia|].
      apply Hle. by right.
Qed.

Lemma foldl_max_spec (x : Z) (l : list Z) :
  foldl Z.max x l ∈ x :: l ∧ ∀ y, y ∈ x :: l → y ≤ foldl Z.max x l.
Proof.
  revert x. induction l as [|a l IH]; intros x; simpl.
  - split; [left|]. intros y ->%list_elem_of_singleton. lia.
  - destruct (IH (Z.max x a)) as [Hin Hle]. split.
    + apply elem_of_cons in Hin as [Heq|Hin]; [|by do 2 right].
      rewrite Heq. destruct (Z.max_spec x a) as [[_ ->]|[_ ->]]; [right; left|left].
    + intros y Hy. assert (Z.max x a ≤ foldl Z.max (Z.max x a) l) as H0 by (apply Hle; left).
      apply elem_of_cons in Hy as [->|[->|Hy]%elem_of_cons]; [lia|lia|].
      apply Hle. by right.
Qed.

Lemma sql_min_is_min l : is_min l (sql_min l).
Proof. destruct l as [|x l]; [done|]. apply foldl_min_spec. Qed.

Lemma sql_max_is_max l : is_max l (sql_max l).
Proof. destruct l as [|x l]; [done|]. apply foldl_max_spec. Qed.

(** With every star once in the table, [get_stats_movie_by_actor] returns
    one record for every star that has at least one join row to a movie
    and at least [min_count] of them; the record holds the number of these
    rows and the earliest and the latest year among their movies; the
    records come in descending order of the count. *)
Theorem stats_by_actor_aggregates (s : Session) (min_count : Z) :
  NoDup (stars (store s)) →
  ∃ l, get_stats_movie_by_actor min_count s = (Returned l, s)
       ∧ (∀ r, r ∈ l →
               ActorStat.actor r ∈ stars (store s)
               ∧ ActorStat.movie_count r
                 = Z.of_nat (length (played_in (store s) (ActorStat.actor r)))
               ∧ 1 ≤ ActorStat.movie_count r
               ∧ min_count ≤ ActorStat.movie_count r
               ∧ is_min (Movie.year <$> played_in (store s) (ActorStat.actor r))
                        (ActorStat.year_first_movie r)
               ∧ is_max (Movie.year <$> played_in (store s) (ActorStat.actor r))
                        (ActorStat.year_last_movie r))
       ∧ (∀ st, st ∈ stars (store s) →
                1 ≤ Z.of_nat (length (played_in (store s) st)) →
                min_count ≤ Z.of_nat (length (played_in (store s) st)) →
                st ∈ ActorStat.actor <$> l)
       ∧ NoDup (ActorStat.actor <$> l)
       ∧ StronglySorted actor_count_desc l.
Proof.
  intros Hnd. set (d := store s). eexists. split; [reflexivity|]. fold d.
  destruct (group_by_star_spec (join_actors d)) as (Hg & Hkeys & Hmem).
  set (g := group_by_star (join_actors d)) in *.
  assert (∀ st, st ∈ stars d → members st g = played_in d st) as Hmem'.
  { intros st Hst. rewrite Hmem, join_actors_rows_of by done. by rewrite decide_True. }
  assert (∀ st ms, (st, ms) ∈ g → st ∈ stars d ∧ ms = played_in d st ∧ ms ≠ [])
    as Hgroups.
  { intros st ms Hin.
    assert (st ∈ g.*1) as Hk by (apply list_elem_of_fmap; by exists (st, ms)).
    apply Hkeys, list_elem_of_fmap in Hk as ([m st'] & -> & Hrow). simpl in *.
    apply elem_of_join_actors in Hrow as Hrow'. destruct Hrow' as (_ & Hst & _).
    split; [done|]. apply members_of_group in Hin as Hms; [|done].
    rewrite Hmem' in Hms by done. split; [done|]. subst ms. rewrite <- Hmem' by done.
    rewrite Hmem. intros Hnil. apply fmap_nil_inv in Hnil.
    by eapply (filter_nil_not_elem_of _ _ (m, st') Hnil). }
  split; [|split; [|split]].
  - intros r. rewrite merge_sort_Permutation, list_elem_of_filter, list_elem_of_fmap.
    intros (Hmin & [st ms] & -> & Hin). simpl in *.
    apply Hgroups in Hin as (Hst & -> & Hne). split; [done|]. split; [done|].
    split; [destruct (played_in d st); [done|simpl; lia]|]. split; [done|].
    split; [apply sql_min_is_min|apply sql_max_is_max].
  - intros st Hst Hone Hmin.
    assert (st ∈ g.*1) as Hk.
    { apply Hkeys. destruct (played_in d st) as [|m ms] eqn:E; [simpl in Hone; lia|].
      assert (m ∈ (filter (λ r : Movie.t * Star.t, r.2 = st) (join_actors d)).*1) as Hm.
      { rewrite <- Hmem, Hmem', E by done. left. }
      apply list_elem_of_fmap in Hm as ([m' st'] & _ & [Heq Hrow]%list_elem_of_filter).
      simpl in Heq. subst st'. apply list_elem_of_fmap. by exists (m', st). }
    apply group_of_member in Hk. rewrite Hmem' in Hk by done.
    apply list_elem_of_fmap.
    eexists (ActorStat.Stat st _ _ _). split; [done|].
    rewrite merge_sort_Permutation. apply list_elem_of_filter. split; [done|].
    apply list_elem_of_fmap. by exists (st, played_in d st).
  - rewrite merge_sort_Permutation. apply NoDup_keys_filter.
    rewrite <- list_fmap_compose. done.
  - apply StronglySorted_merge_sort; apply _.
Qed.

Lemma stats_by_actor_aggregates_witness :
  ∃ l, get_stats_movie_by_actor 1 (fresh sample_db) = (Returned l, fresh sample_db)
       ∧ NoDup (ActorStat.actor <$> l)
       ∧ StronglySorted actor_count_desc l.
Proof.
  assert (NoDup (stars sample_db)) as Hnd
    by (apply (bool_decide_unpack _); vm_compute; reflexivity).
  destruct (stats_by_actor_aggregates (fresh sample_db) 1 Hnd)
    as (l & Hrun & _ & _ & Hd & Hs).
  exists l. split; [exact Hrun|]. split; [exact Hd|exact Hs].
Defined.

(** ** Stars by year of birth *)

(** Whatever the order of the names, [get_stars_by_birthyear] returns
    exactly the stars whose birthdate lies in the year, no row more often
    than the table has it; a star without birthdate is never returned. *)
Theorem stars_by_birthyear_have_birthdate (name_le : string → string → Prop)
    `{!RelDecision name_le} (s : Session) (year : Z) :
  ∃ l, get_stars_by_birthyear name_le year s = (Returned l, s)
       ∧ (∀ st, st ∈ l ↔ st ∈ stars (store s)
                         ∧ ∃ b, Star.birthdate st = Some b ∧ date_year b = year)
       ∧ l ⊆+ stars (store s).
Proof.
  eexists. split; [reflexivity|]. split.
  - intros st. rewrite merge_sort_Permutation. unfold _get_stars_by_predicate.
    rewrite list_elem_of_filter, Forall_singleton, bool_decide_eq_true.
    destruct (Star.birthdate st) as [b|]; simpl.
    + split; [intros [[= <-] ?]; eauto|intros (? & b' & [= <-] & <-); done].
    + split; [intros [? _]; done|intros (_ & b & ? & _); done].
  - rewrite merge_sort_Permutation. apply sublist_submseteq, sublist_filter.
Qed.

(** ** Replacing the actors on duplicated join rows *)

Lemma deleted_rows_deletes_sum d movie_id (ids : list Z) :
  NoDup ids →
  deleted_rows d (DeletePlay movie_id <$> ids)
  = sum_list ((λ sid, length (join_rows movie_id sid d)) <$> ids).
Proof.
  revert d. induction ids as [|sid ids IH]; intros d Hnd; [done|].
  apply NoDup_cons in Hnd as [Hsid Hnd]. csimpl. rewrite IH by done. f_equal.
  f_equal. apply list_fmap_ext. intros _ sid' Hin%list_elem_of_lookup_2.
  rewrite join_rows_delete_other; [done|]. intros ->. done.
Qed.

Lemma sum_list_above (f : Z → nat) (l : list Z) :
  (∀ x, x ∈ l → (1 ≤ f x)%nat) →
  (∃ x, x ∈ l ∧ (1 < f x)%nat) →
  (length l < sum_list (f <$> l))%nat.
Proof.
  assert (∀ k : list Z, (∀ x, x ∈ k → (1 ≤ f x)%nat) → (length k ≤ sum_list (f <$> k))%nat)
    as Hge.
  { induction k as [|a k IH]; intros Hone; [done|]. csimpl.
    specialize (Hone a (list_elem_of_here _ _)) as Ha.
    assert (length k ≤ sum_list (f <$> k))%nat by (apply IH; intros x ?; apply Hone; by right).
    lia. }
  induction l as [|a l IH]; intros Hone (x & Hx & Hbig); [by apply elem_of_nil in Hx|].
  csimpl. specialize (Hone a (list_elem_of_here _ _)) as Ha.
  apply elem_of_cons in Hx as [->|Hx].
  - assert (length l ≤ sum_list (f <$> l))%nat by (apply Hge; intros y ?; apply Hone; by right).
    lia.
  - assert (length l < sum_list (f <$> l))%nat
      by (apply IH; [intros y ?; apply Hone; by right|eauto]).
    lia.
Qed.

Lemma actor_has_join_row d movie_id s :
  s ∈ actors_of movie_id d → (1 ≤ length (join_rows movie_id (Star.id s) d))%nat.
Proof.
  intros (_ & p & Hp & Hm & Ha)%actors_of_acts_in.
  destruct (join_rows movie_id (Star.id s) d) as [|q l] eqn:E; [|simpl; lia].
  exfalso. eapply (filter_nil_not_elem_of _ _ p E); done.
Qed.

(** When the movie exists and an actor that leaves the cast has several
    join rows to the movie, [update_movie_actors] raises StaleDataError
    and nothing is written: the store is as it was and the unit of work is
    empty. *)
Theorem update_movie_actors_duplicate_row_raises (d : DB) (movie_id : Z)
    (star_ids : list Z) :
  movie_exists movie_id d →
  (∃ s, s ∈ actors_of movie_id d
        ∧ (Star.id s ∉ star_ids)
        ∧ (1 < length (join_rows movie_id (Star.id s) d))%nat) →
  run (update_movie_actors movie_id star_ids) d = (Raised StaleDataError, fresh d).
Proof.
  intros [m Hm]%movie_by_id_is_Some (s & Hs & Hout & Hdup).
  apply (update_movie_actors_stale d movie_id star_ids m Hm).
  set (new := filter (λ s, Star.id s ∈ star_ids) (stars d)).
  unfold stale, actor_changes.
  rewrite deleted_rows_app, deletes_app, !list_fmap_compose.
  rewrite deleted_rows_inserts, deletes_inserts, deletes_deletes, !Nat.add_0_r.
  rewrite deleted_rows_deletes_sum by (apply NoDup_keys_filter, actors_of_NoDup).
  apply negb_true_iff, Nat.eqb_neq.
  set (leaving := Star.id <$> filter (λ s, Star.id s ∉ Star.id <$> new)
                                     (actors_of movie_id d)).
  assert (length leaving
          < sum_list ((λ sid, length (join_rows movie_id sid d)) <$> leaving))%nat;
    [|lia].
  apply sum_list_above.
  - intros sid (x & -> & [_ Hx]%list_elem_of_filter)%list_elem_of_fmap.
    by apply actor_has_join_row.
  - exists (Star.id s). split; [|done].
    apply list_elem_of_fmap_2, list_elem_of_filter. split; [|done].
    intros (x & Hk & [Hin _]%list_elem_of_filter)%list_elem_of_fmap.
    apply Hout. by rewrite Hk.
Qed.

Lemma update_movie_actors_duplicate_row_raises_witness :
  run (update_movie_actors 3 [12]) dup_db = (Raised StaleDataError, fresh dup_db).
Proof.
  apply (update_movie_actors_duplicate_row_raises dup_db 3 [12]).
  - apply (bool_decide_unpack _). vm_compute. reflexivity.
  - exists (Star.Row 14 "Bob" None). split; [|split].
    + apply (bool_decide_unpack _). vm_compute. reflexivity.
    + apply (bool_decide_unpack _). vm_compute. reflexivity.
    + vm_compute. lia.
Defined.
